(** * snakejs: the weighted sampler and the population controller

    A shallow embedding of [src/utils.js] (weightedRandomSelection) and of
    [src/controllers/gameInstancesManager.js] (GameInstancesManager) together
    with the part of [src/managers/gameInstance.js] the controller relies on.

    JavaScript numbers are IEEE 754 binary64 values; they are modelled by
    [spec_float] at precision 53 and maximal exponent 1024, so that NaN,
    signed zeros, infinities and rounding are those of the running program. *)

From Stdlib Require Import ZArith Bool Lia String.
From Stdlib Require Import Floats.SpecFloat.
From stdpp Require Import base list functions.

Local Open Scope Z_scope.

(** ** JavaScript numbers *)

Module Num.

Definition number : Type := spec_float.

Definition prec : Z := 53.
Definition emax : Z := 1024.

Definition NaN : number := S754_nan.
Definition zero : number := S754_zero false.
Definition one : number := S754_finite false 4503599627370496 (-52).
Definition half : number := S754_finite false 4503599627370496 (-53).
Definition infinity : number := S754_infinity false.

Definition add (x y : number) : number := SFadd prec emax x y.
Definition mul (x y : number) : number := SFmul prec emax x y.
Definition div (x y : number) : number := SFdiv prec emax x y.
Definition sub (x y : number) : number := SFsub prec emax x y.

(** [abs] of p5.js, that is [Math.abs]. *)
Definition abs (x : number) : number := SFabs x.

(** [x <= y], [x < y] and [x == y] on numbers: false as soon as one side
    is NaN. *)
Definition leb (x y : number) : bool := SFleb x y.
Definition ltb (x y : number) : bool := SFltb x y.
Definition eqb (x y : number) : bool := SFeqb x y.

(** The global [isNaN] applied to a number. *)
Definition isNaN (x : number) : bool :=
  match x with
  | S754_nan => true
  | _ => false
  end.

Definition isFinite (x : number) : bool :=
  match x with
  | S754_zero _ | S754_finite _ _ _ => true
  | _ => false
  end.

(** The number denoted by an array length or a loop counter. *)
Definition of_nat (n : nat) : number :=
  binary_normalize prec emax (Z.of_nat n) 0 false.

(** [0 <= x]: a non-negative number (so not NaN). *)
Definition nonneg (x : number) : bool := leb zero x.

(** The values a binary64 register can hold: the mantissa of a finite value
    has at most 53 bits and its exponent is the canonical one. *)
Definition valid (x : number) : bool := valid_binary prec emax x.

(** The exponent of a finite value is not below that of the subnormals. *)
Definition exponent_ok (x : number) : Prop :=
  match x with
  | S754_finite _ _ e => emin prec emax <= e
  | _ => True
  end.

(** What the rounding of a mantissa of sign [s] can give: a zero, an
    infinity or a finite value, all of sign [s]; never NaN. *)
Inductive rounded (s : bool) : number -> Prop :=
  | rounded_zero : rounded s (S754_zero s)
  | rounded_infinity : rounded s (S754_infinity s)
  | rounded_finite m e : emin prec emax <= e -> rounded s (S754_finite s m e).

Inductive rounded_nonzero (s : bool) : number -> Prop :=
  | rounded_nz_infinity : rounded_nonzero s (S754_infinity s)
  | rounded_nz_finite m e :
      emin prec emax <= e -> rounded_nonzero s (S754_finite s m e).

(** A finite non-negative value of at most 53 significant bits with an
    exponent in the range of binary64. *)
Definition bounded_value (x : number) : Prop :=
  match x with
  | S754_zero _ => True
  | S754_finite false m e =>
      emin prec emax <= e <= emax - prec /\ Z.pos (digits2_pos m) <= prec
  | _ => False
  end.

(** The value of a finite non-negative number in units of the least
    subnormal. *)
Definition scaled (x : number) : Z :=
  match x with
  | S754_finite _ m e => Z.pos m * 2 ^ (e - emin prec emax)
  | _ => 0
  end.

(** What [Math.random()] returns: a binary64 value in [[0, 1)]. *)
Definition unit_draw (u : number) : Prop :=
  valid u = true /\ nonneg u = true /\ ltb u one = true.

End Num.

Import Num.

(** ** The ambient random generator

    [Math.random()] reads a process-wide generator.  It is modelled by an
    infinite tape of draws and the position of the next draw; a call returns
    the draw under the head and advances the head by one. *)

Record Random : Type := mkRandom {
  tape : nat -> number;
  position : nat
}.

Definition Math_random (g : Random) : number * Random :=
  (tape g (position g), mkRandom (tape g) (S (position g))).

(** ** Arrays *)

(** [a[i]] on an array of numbers used as an operand of [+]: an index past
    the end reads [undefined], which [+] converts to NaN. *)
Definition number_at (a : list number) (i : nat) : number :=
  match a !! i with
  | Some w => w
  | None => NaN
  end.

(** [a.every(p)] *)
Definition every {X : Type} (p : X -> bool) (a : list X) : bool := forallb p a.

(** [a.fill(v)]: overwrites every slot of [a] itself with [v]; the array keeps
    its length. *)
Definition fill {X : Type} (v : X) (a : list X) : list X := map (fun _ => v) a.

(** [a.reduce((acc, w) => acc + w, 0)] *)
Definition reduce_sum (a : list number) : number := fold_left add a zero.

(** ** utils.js: weightedRandomSelection *)

(** The memory a call can reach: the two arrays it receives by reference and
    the random generator. *)
Record Memory (A : Type) : Type := mkMemory {
  elements : list A;
  weights : list number;
  random : Random
}.
Arguments mkMemory {A} _ _ _.
Arguments elements {A} _.
Arguments weights {A} _.
Arguments random {A} _.

Section Sampler.
Context {A : Type}.

(** The [for] loop of lines 35-42: [todo] iterations remain, [i] is the loop
    index and [cumulativeWeight] the running sum on entry.  [None] is the
    [null] returned after the loop. *)
Fixpoint walk (elts : list A) (wts : list number) (randomValue : number)
    (todo i : nat) (cumulativeWeight : number) : option A :=
  match todo with
  | O => None
  | S todo' =>
      let cumulativeWeight' := add cumulativeWeight (number_at wts i) in
      if leb randomValue cumulativeWeight'
      then elts !! i
      else walk elts wts randomValue todo' (S i) cumulativeWeight'
  end.

(** Lines 28-30: the all-NaN test and the in-place [fill]. *)
Definition degenerate_weights (wts : list number) : list number :=
  if every isNaN wts
  then fill (div one (of_nat (length wts))) wts
  else wts.

(** Lines 31-42, run on a memory whose weights are already settled. *)
Definition select_from (m : Memory A) : option A * Memory A :=
  let totalWeight := reduce_sum (weights m) in
  let '(u, g) := Math_random (random m) in
  let randomValue := mul u totalWeight in
  (walk (elements m) (weights m) randomValue (length (elements m)) 0 zero,
   mkMemory (elements m) (weights m) g).

(** The inclusive cumulative weight of the element at index [i]: the sum,
    taken from the left, of the weights at indices [0..i]. *)
Definition cumulative (wts : list number) (i : nat) : number :=
  reduce_sum (take (S i) wts).

(** The scaled draw [r] falls to the element at index [i]: [i] is the least
    index whose inclusive cumulative weight reaches [r]. *)
Definition first_hit (wts : list number) (r : number) (i : nat) : Prop :=
  leb r (cumulative wts i) = true /\
  forall j, (j < i)%nat -> leb r (cumulative wts j) = false.

Definition weightedRandomSelection (m : Memory A) : option A * Memory A :=
  select_from
    (mkMemory (elements m) (degenerate_weights (weights m)) (random m)).

(** The memory a call leaves behind. *)
Definition after_call (m : Memory A) : Memory A :=
  snd (weightedRandomSelection m).

End Sampler.

(** The generator after one more call to [Math.random()]. *)
Definition advance (g : Random) : Random := snd (Math_random g).

(** The uniform vector [[1/n, ..., 1/n]] of length [n]. *)
Definition uniform (n : nat) : list number :=
  replicate n (div one (of_nat n)).

(** ** managers/gameInstance.js *)

(** The fields the constructor of [GameInstance] sets. *)
Record GameInstance (Snake Food : Type) : Type := mkGameInstance {
  snake : Snake;
  food : Food;
  score : number;
  isOver : bool
}.
Arguments mkGameInstance {Snake Food} _ _ _ _.
Arguments snake {Snake Food} _.
Arguments food {Snake Food} _.
Arguments score {Snake Food} _.
Arguments isOver {Snake Food} _.

(** An instance that is not over and whose score is the initial one. *)
Definition is_reset {Snake Food : Type} (g : GameInstance Snake Food) : Prop :=
  isOver g = false /\ score g = zero.

(** What the controller calls but the three files do not define: the classes
    [Snake] and [Food] (their constructors and [copy]), and the methods
    [calculateFitness] and [mutate] that the controller invokes on its
    instances although the class body of [GameInstance] does not declare
    them.  [calculateFitness] reads the receiver, [mutate] rewrites the
    receiver and nothing else.  [Snake_restart] and [Food_restart] stand for
    what clearing the episode state does to the agent and its environment. *)
Class Collaborators : Type := {
  Snake : Type;
  Food : Type;
  Snake_new : Snake;
  Food_new : Food;
  Snake_copy : Snake -> Snake;
  Food_copy : Food -> Food;
  Snake_restart : Snake -> Snake;
  Food_restart : Food -> Food;
  calculateFitness : GameInstance Snake Food -> number;
  mutate : GameInstance Snake Food -> GameInstance Snake Food
}.

(** Objects live in a store addressed by references; two slots of an array
    that hold the same reference hold the same object. *)
Abbreviation ref := nat (only parsing).

Inductive completion (X : Type) : Type :=
  | Returned (x : X)
  | Thrown_TypeError.
Arguments Returned {X} _.
Arguments Thrown_TypeError {X}.

Section Controller.
Context `{Collaborators}.

Abbreviation instance := (GameInstance Snake Food).

(** [constructor()] of [GameInstance] (lines 6-11): it declares no
    parameter, so whatever a [new GameInstance(...)] expression passes is
    evaluated and dropped. *)
Definition GameInstance_constructor : instance :=
  mkGameInstance Snake_new Food_new zero false.

(** Modelled from the spec: [GameInstance.reset], which [selection()] calls
    and no source file defines.  Spec 4.2 (c): "reset that survivor instance
    (clear terminal flag, score, episode state; the agent's learned
    parameters are preserved across the reset)".  The terminal flag and the
    score go back to what the constructor gives them. *)
Definition reset (g : instance) : instance :=
  mkGameInstance (Snake_restart (snake g)) (Food_restart (food g)) zero false.

(** *** controllers/gameInstancesManager.js *)

(** The manager's two fields, the object store with its next free reference,
    and the random generator.  [nInstances] is the count the constructor was
    given, a natural number. *)
Record Controller : Type := mkController {
  nInstances : nat;
  gameInstances : list ref;
  objects : ref -> instance;
  fresh : ref;
  generator : Random
}.

(** [new GameInstancesManager(nInstances)] *)
Definition constructor (n : nat) (objs : ref -> instance) (next : ref)
    (g : Random) : Controller :=
  mkController n [] objs next g.

(** [createGameInstance(snake, food)]: allocates [new GameInstance(snake,
    food)] and returns its reference. *)
Definition createGameInstance (snake0 : Snake) (food0 : Food)
    (c : Controller) : ref * Controller :=
  (fresh c,
   mkController (nInstances c) (gameInstances c)
     (<[fresh c := GameInstance_constructor]> (objects c))
     (S (fresh c)) (generator c)).

(** [this.gameInstances.push(r)] *)
Definition push (r : ref) (c : Controller) : Controller :=
  mkController (nInstances c) (gameInstances c ++ [r]) (objects c)
    (fresh c) (generator c).

Fixpoint createGameInstances_loop (todo : nat) (snake0 : Snake)
    (food0 : Food) (c : Controller) : Controller :=
  match todo with
  | O => c
  | S todo' =>
      let snakeCopy := Snake_copy snake0 in
      let foodCopy := Food_copy food0 in
      let '(r, c1) := createGameInstance snakeCopy foodCopy c in
      createGameInstances_loop todo' snake0 food0 (push r c1)
  end.

Definition createGameInstances (snake0 : Snake) (food0 : Food)
    (c : Controller) : Controller :=
  createGameInstances_loop (nInstances c) snake0 food0 c.

(** The loop of [selection()] (lines 70-80).  [None] as first component:
    the sampler returned [null] and [gameInstance.reset()] threw. *)
Fixpoint selection_loop (todo : nat) (newGameInstances : list ref)
    (objs : ref -> instance) (m : Memory ref)
    : option (list ref) * (ref -> instance) * Memory ref :=
  match todo with
  | O => (Some newGameInstances, objs, m)
  | S todo' =>
      let '(gameInstance, m') := weightedRandomSelection m in
      match gameInstance with
      | None => (None, objs, m')
      | Some r =>
          selection_loop todo' (newGameInstances ++ [r])
            (alter reset r objs) m'
      end
  end.

Definition fitnesses_of (c : Controller) : list number :=
  map (fun r => calculateFitness (objects c r)) (gameInstances c).

Definition normalize (fitnesses : list number) : list number :=
  let totalFitness := reduce_sum fitnesses in
  map (fun fitness => div fitness totalFitness) fitnesses.

(** Lines 70-82: the loop run on the weights [fitnessesNormalized], then the
    assignment to [this.gameInstances], which is not reached when the loop
    throws. *)
Definition select_population (fitnessesNormalized : list number)
    (c : Controller) : completion unit * Controller :=
  let '(newGameInstances, objs, m) :=
    selection_loop (nInstances c) [] (objects c)
      (mkMemory (gameInstances c) fitnessesNormalized (generator c)) in
  match newGameInstances with
  | None =>
      (Thrown_TypeError,
       mkController (nInstances c) (gameInstances c) objs (fresh c)
         (random m))
  | Some new =>
      (Returned tt,
       mkController (nInstances c) new objs (fresh c) (random m))
  end.

Definition selection (c : Controller) : completion unit * Controller :=
  select_population (normalize (fitnesses_of c)) c.

(** [this.gameInstances.forEach((gameInstance) => gameInstance.mutate())] *)
Definition mutate_each (refs : list ref) (objs : ref -> instance)
    : ref -> instance :=
  fold_left (fun o r => alter mutate r o) refs objs.

Definition mutation (c : Controller) : Controller :=
  mkController (nInstances c) (gameInstances c)
    (mutate_each (gameInstances c) (objects c)) (fresh c) (generator c).

Definition nextGeneration (c : Controller) : completion unit * Controller :=
  match selection c with
  | (Returned _, c') => (Returned tt, mutation c')
  | (Thrown_TypeError, c') => (Thrown_TypeError, c')
  end.

Definition allInstancesOver (c : Controller) : bool :=
  every (fun r => isOver (objects c r)) (gameInstances c).

(** The [snakes] getter. *)
Definition snakes (c : Controller) : list Snake :=
  map (fun r => snake (objects c r)) (gameInstances c).

(** A uniform random choice of the next population, in the words of the
    description: [c'] has [nInstances] slots; slot [k] holds the member of
    the population of [c] on which the [k]-th draw falls when every member
    has the weight [1/n], [n] being the size of that population; and an
    instance has been reset once for every slot it fills. *)
Definition uniform_selection (c c' : Controller) : Prop :=
  let n := length (gameInstances c) in
  let totalWeight := reduce_sum (uniform n) in
  nInstances c' = nInstances c /\
  fresh c' = fresh c /\
  length (gameInstances c') = nInstances c /\
  (forall k, (k < nInstances c)%nat ->
     exists (i : nat) (r : ref),
       gameInstances c' !! k = Some r /\
       gameInstances c !! i = Some r /\
       first_hit (uniform n)
         (mul (tape (generator c) (position (generator c) + k)) totalWeight)
         i) /\
  (forall r, objects c' r
             = Nat.iter (count_occ Nat.eq_dec (gameInstances c') r) reset
                 (objects c r)).

End Controller.

(** ** utils.js: manhattanDistance *)

(** A position on the canvas, with the fields [x] and [y] the code reads. *)
Module Point.
Record t : Type := mk { x : number; y : number }.
End Point.

Module Utils.

(** What [manhattanDistance] reads of its first argument: [snake.head]. *)
Record Snake : Type := mkSnake { head : Point.t }.

(** [manhattanDistance(snake, food)] (lines 7-9).  [tileSize] is a global
    constant of the sketch that the three files do not define. *)
Definition manhattanDistance (tileSize : number) (snake : Snake)
    (food : Point.t) : number :=
  div (add (abs (sub (Point.x (head snake)) (Point.x food)))
           (abs (sub (Point.y (head snake)) (Point.y food))))
      tileSize.

End Utils.

(** ** managers/gameInstance.js: the episode of one instance *)

(** The text [run] hands to [text]: ["Game Over."] and ["Score: " + n]. *)
Inductive Message : Type :=
  | Game_Over
  | Score (n : Z).

(** The calls [run] makes that draw on the canvas or stop the draw loop, in
    the order it makes them; [show_food] and [show_snake] are [food.show()]
    and [snake.show()]. *)
Inductive P5Call (Snake Food : Type) : Type :=
  | p5_background (r g b : Z)
  | show_food (f : Food)
  | show_snake (s : Snake)
  | p5_translate (dx dy : number)
  | p5_textAlign_CENTER_CENTER
  | p5_fill (r g b : Z)
  | p5_textSize (n : Z)
  | p5_text (msg : Message) (tx ty : Z)
  | p5_noLoop.
Arguments p5_background {Snake Food} _ _ _.
Arguments show_food {Snake Food} _.
Arguments show_snake {Snake Food} _.
Arguments p5_translate {Snake Food} _ _.
Arguments p5_textAlign_CENTER_CENTER {Snake Food}.
Arguments p5_fill {Snake Food} _ _ _.
Arguments p5_textSize {Snake Food} _.
Arguments p5_text {Snake Food} _ _ _.
Arguments p5_noLoop {Snake Food}.

(** What [GameInstance] calls on its snake and its food, and the canvas size
    [width], [height] of p5.js; none of them is defined in the three files.
    [Snake_eat] and [Snake_collision] are read as tests, the others rewrite
    their receiver. *)
Class Game `{Collaborators} : Type := {
  width : number;
  height : number;
  Snake_body : Snake -> list Point.t;
  Snake_eat : Snake -> Food -> bool;
  Snake_extendBody : Snake -> Snake;
  Snake_update : Snake -> Snake;
  Snake_collision : Snake -> bool;
  Snake_changeDirection : number -> number -> Snake -> Snake;
  Food_updateLocation : Food -> Food
}.

Section Episode.
Context `{Game}.

Abbreviation call := (P5Call Snake Food).

(** [updateSnakeDirection(x, y)] (lines 33-35) *)
Definition updateSnakeDirection (dx dy : number) (g : GameInstance Snake Food)
    : GameInstance Snake Food :=
  mkGameInstance (Snake_changeDirection dx dy (snake g)) (food g) (score g)
    (isOver g).

(** [borderCollision()] (lines 37-44).  [this.snake.body[0]] on an empty
    body is [undefined], and reading its [x] throws. *)
Definition borderCollision (g : GameInstance Snake Food) : completion bool :=
  match Snake_body (snake g) !! 0%nat with
  | None => Thrown_TypeError
  | Some p =>
      Returned (ltb (Point.x p) zero || ltb width (Point.x p)
                || ltb (Point.y p) zero || ltb height (Point.y p))
  end.

(** [gameOver()] (lines 46-48): [snake.collision()] is asked only when the
    border test is false. *)
Definition gameOver (g : GameInstance Snake Food) : completion bool :=
  match borderCollision g with
  | Returned true => Returned true
  | Returned false => Returned (Snake_collision (snake g))
  | Thrown_TypeError => Thrown_TypeError
  end.

(** [gameOverMessage()] (lines 50-62) *)
Definition gameOverMessage (g : GameInstance Snake Food) : list call :=
  [ p5_translate (div width (of_nat 2)) (div height (of_nat 2));
    p5_textAlign_CENTER_CENTER;
    p5_fill 250 128 114;
    p5_textSize 32;
    p5_text Game_Over 0 0;
    p5_fill 255 128 114;
    p5_textSize 24;
    p5_text (Score (Z.of_nat (length (Snake_body (snake g))) - 1)) 0 25;
    p5_noLoop ].

(** The instance after lines 19-24 of [run()]: the food moves and the snake
    grows when the snake eats, then the snake advances. *)
Definition step (g : GameInstance Snake Food) : GameInstance Snake Food :=
  let eaten := Snake_eat (snake g) (food g) in
  let food1 := if eaten then Food_updateLocation (food g) else food g in
  let snake1 := if eaten then Snake_extendBody (snake g) else snake g in
  mkGameInstance (Snake_update snake1) food1 (score g) (isOver g).

(** [run()] (lines 16-31): the completion, the instance it leaves and the
    calls it made. *)
Definition run (g : GameInstance Snake Food)
    : completion unit * GameInstance Snake Food * list call :=
  let g' := step g in
  let drawn :=
    [p5_background 59 37 44; show_food (food g); show_snake (snake g')] in
  match gameOver g' with
  | Thrown_TypeError => (Thrown_TypeError, g', drawn)
  | Returned true => (Returned tt, g', drawn ++ gameOverMessage g')
  | Returned false => (Returned tt, g', drawn)
  end.

(** [this.gameInstances.forEach((gameInstance) => gameInstance.run())] on
    the store [objs], appending to the calls made so far. *)
Fixpoint runInstances_loop (refs : list ref)
    (objs : ref -> GameInstance Snake Food) (calls : list call)
    : completion unit * (ref -> GameInstance Snake Food) * list call :=
  match refs with
  | [] => (Returned tt, objs, calls)
  | r :: refs' =>
      let '(res, g', made) := run (objs r) in
      match res with
      | Thrown_TypeError =>
          (Thrown_TypeError, <[r := g']> objs, calls ++ made)
      | Returned _ =>
          runInstances_loop refs' (<[r := g']> objs) (calls ++ made)
      end
  end.

(** [runInstances()] of the manager (lines 105-107). *)
Definition runInstances (c : Controller) (calls : list call)
    : completion unit * Controller * list call :=
  let '(res, objs, calls') :=
    runInstances_loop (gameInstances c) (objects c) calls in
  (res,
   mkController (nInstances c) (gameInstances c) objs (fresh c) (generator c),
   calls').

End Episode.

(** ** A counting collaborator

    A stub agent: the snake is the number of times [mutate] ran on the
    instance, the food is untouched, and the fitness is the score. *)
#[local] Instance counting : Collaborators := {|
  Snake := nat;
  Food := nat;
  Snake_new := 0%nat;
  Food_new := 0%nat;
  Snake_copy := fun s => s;
  Food_copy := fun f => f;
  Snake_restart := fun s => s;
  Food_restart := fun f => f;
  calculateFitness := fun g => score g;
  mutate := fun g => mkGameInstance (S (snake g)) (food g) (score g) (isOver g)
|}.

(** The game of the stub: the head of the snake is at [(snake, 0)] on a
    canvas of 3 by 3, the snake moves one unit to the right at every step,
    never eats and never bites itself. *)
#[local] Instance sliding : Game := {|
  width := of_nat 3;
  height := of_nat 3;
  Snake_body := fun s => [Point.mk (of_nat s) zero];
  Snake_eat := fun _ _ => false;
  Snake_extendBody := fun s => s;
  Snake_update := fun s => S s;
  Snake_collision := fun _ => false;
  Snake_changeDirection := fun _ _ s => s;
  Food_updateLocation := fun f => f
|}.


Definition const_tape (u : number) : nat -> number := fun _ => u.

(** Two finished instances, the first with score 1 and the second with
    score 0. *)
Definition two_objects : ref -> GameInstance nat nat :=
  fun r =>
    match r with
    | O => mkGameInstance 0%nat 0%nat one true
    | _ => mkGameInstance 0%nat 0%nat zero true
    end.

Definition draws_half : Random := mkRandom (const_tape half) 0.

Definition two_scored : Controller :=
  mkController 2 [0; 1]%nat two_objects 2%nat draws_half.

Definition abc : list string := ["a"; "b"; "c"]%string.

(** A manager of two instances before [createGameInstances]. *)
Definition new_manager : Controller :=
  constructor (H := counting) 2 two_objects 2%nat draws_half.

(** A generator whose every draw is 0. *)
Definition draws_zero : Random := mkRandom (const_tape zero) 0.

(** Two instances, the first with the fitness [score0] and the second with
    fitness 1. *)
Definition scored (score0 : number) : Controller :=
  mkController 2 [0; 1]%nat
    (fun r =>
       match r with
       | O => mkGameInstance 0%nat 0%nat score0 true
       | _ => mkGameInstance 0%nat 0%nat one true
       end)
    2%nat draws_half.

(** A population whose two slots hold the same instance. *)
Definition one_in_two_slots : Controller :=
  mkController 2 [0; 0]%nat
    (fun _ => mkGameInstance 0%nat 0%nat zero false) 1%nat draws_half.

(** Two instances of the sliding game, the second one step from leaving the
    canvas. *)
Definition near_the_border : Controller :=
  mkController 2 [0; 1]%nat
    (fun r =>
       match r with
       | O => mkGameInstance 0%nat 0%nat zero false
       | _ => mkGameInstance 3%nat 0%nat zero false
       end)
    2%nat draws_half.

(** The weights [[1, 2, 3]] of the example in the doc comment of
    [weightedRandomSelection]. *)
Definition one_two_three : list number := [of_nat 1; of_nat 2; of_nat 3].

(** The draws 0.25 and 0.75, and a generator whose first draw is 0.75 and
    whose later draws are 0.25. *)
Definition quarter : number := S754_finite false 4503599627370496 (-54).
Definition three_quarters : number := S754_finite false 6755399441055744 (-53).

Definition high_then_low : Random :=
  mkRandom (fun k => match k with O => three_quarters | _ => quarter end) 0.

(** Two finished instances that both scored zero, under that generator. *)
Definition two_idle_mixed : Controller :=
  mkController 2 [0; 1]%nat
    (fun _ => mkGameInstance 0%nat 0%nat zero true) 2%nat high_then_low.

(** Two instances, the first with the fitness NaN, under that generator. *)
Definition scored_NaN_mixed : Controller :=
  mkController 2 [0; 1]%nat
    (fun r =>
       match r with
       | O => mkGameInstance 0%nat 0%nat NaN true
       | _ => mkGameInstance 0%nat 0%nat one true
       end)
    2%nat high_then_low.

(** * Properties *)

(** ** Numbers: NaN is absorbing and compares false *)

Lemma add_NaN_l (y : number) : add NaN y = NaN.
Proof. reflexivity. Qed.

Lemma add_NaN_r (x : number) : add x NaN = NaN.
Proof. destruct x; reflexivity. Qed.

Lemma mul_NaN_r (x : number) : mul x NaN = NaN.
Proof. destruct x; reflexivity. Qed.

Lemma leb_NaN_l (y : number) : leb NaN y = false.
Proof. reflexivity. Qed.

Lemma leb_NaN_r (x : number) : leb x NaN = false.
Proof. destruct x; reflexivity. Qed.

Lemma fold_add_NaN (l : list number) : fold_left add l NaN = NaN.
Proof. induction l as [|w l IH]; simpl; [reflexivity | exact IH]. Qed.

Lemma fold_add_has_NaN (l : list number) (acc : number) :
  NaN ∈ l -> fold_left add l acc = NaN.
Proof.
  revert acc. induction l as [|w l IH]; intros acc Hin.
  - inversion Hin.
  - simpl. apply elem_of_cons in Hin as [<- | Hin].
    + rewrite add_NaN_r. apply fold_add_NaN.
    + apply IH, Hin.
Qed.

Lemma reduce_sum_has_NaN (l : list number) : NaN ∈ l -> reduce_sum l = NaN.
Proof. apply fold_add_has_NaN. Qed.

(** ** Numbers: rounding a non-negative mantissa

    The right shifts of [binary_round_aux] divide the mantissa by a power of
    two; a mantissa that is not negative stays so, and one that is positive
    and whose exponent is not below [emin] keeps at least one bit. *)

Lemma shr_1_m (mrs : shr_record) :
  0 <= shr_m mrs -> shr_m (shr_1 mrs) = shr_m mrs / 2.
Proof.
  destruct mrs as [m r s]. simpl. intros Hm.
  destruct m as [|p|p]; [reflexivity | | lia].
  destruct p as [p|p|]; simpl shr_m.
  - rewrite Pos2Z.inj_xI. apply Z.div_unique with (r := 1); lia.
  - rewrite Pos2Z.inj_xO. apply Z.div_unique with (r := 0); lia.
  - reflexivity.
Qed.

Lemma pow2_xI (p : positive) : 2 ^ Zpos p~1 = 2 * (2 ^ Zpos p * 2 ^ Zpos p).
Proof.
  replace (Z.pos p~1) with (1 + (Z.pos p + Z.pos p)) by lia.
  rewrite !Z.pow_add_r by lia. reflexivity.
Qed.

Lemma pow2_xO (p : positive) : 2 ^ Zpos p~0 = 2 ^ Zpos p * 2 ^ Zpos p.
Proof.
  replace (Z.pos p~0) with (Z.pos p + Z.pos p) by lia.
  rewrite Z.pow_add_r by lia. reflexivity.
Qed.

Lemma iter_pos_shr_m (p : positive) (mrs : shr_record) :
  0 <= shr_m mrs ->
  shr_m (SpecFloat.iter_pos shr_1 p mrs) = shr_m mrs / 2 ^ Zpos p.
Proof.
  revert mrs. induction p as [p IH|p IH|]; intros mrs Hm; simpl SpecFloat.iter_pos.
  - assert (H1 : 0 <= shr_m (shr_1 mrs))
      by (rewrite shr_1_m by exact Hm; apply Z.div_pos; lia).
    assert (H2 : 0 <= shr_m (SpecFloat.iter_pos shr_1 p (shr_1 mrs)))
      by (rewrite IH by exact H1; apply Z.div_pos; lia).
    rewrite IH by exact H2. rewrite IH by exact H1. rewrite shr_1_m by exact Hm.
    rewrite !Z.div_div by lia. rewrite pow2_xI. reflexivity.
  - assert (H2 : 0 <= shr_m (SpecFloat.iter_pos shr_1 p mrs))
      by (rewrite IH by exact Hm; apply Z.div_pos; lia).
    rewrite IH by exact H2. rewrite IH by exact Hm.
    rewrite !Z.div_div by lia. rewrite pow2_xO. reflexivity.
  - rewrite shr_1_m by exact Hm. reflexivity.
Qed.

Lemma digits2_pos_lower (p : positive) :
  2 ^ (Zpos (digits2_pos p) - 1) <= Zpos p.
Proof.
  induction p as [p IH|p IH|]; simpl digits2_pos.
  - rewrite Pos2Z.inj_succ. replace (Z.succ (Z.pos (digits2_pos p)) - 1)
      with (1 + (Z.pos (digits2_pos p) - 1)) by lia.
    rewrite Z.pow_add_r by lia. change (2 ^ 1) with 2. lia.
  - rewrite Pos2Z.inj_succ. replace (Z.succ (Z.pos (digits2_pos p)) - 1)
      with (1 + (Z.pos (digits2_pos p) - 1)) by lia.
    rewrite Z.pow_add_r by lia. change (2 ^ 1) with 2. lia.
  - simpl. lia.
Qed.

Lemma shr_record_of_loc_m (m : Z) (l : location) :
  shr_m (shr_record_of_loc m l) = m.
Proof. destruct l as [|[]]; reflexivity. Qed.

(** What [shr_fexp] does to the mantissa and the exponent. *)
Lemma shr_fexp_spec (m e : Z) (l : location) :
  0 <= m ->
  let n := Z.max 0 (fexp prec emax (Zdigits2 m + e) - e) in
  shr_m (fst (shr_fexp prec emax m e l)) = m / 2 ^ n /\
  snd (shr_fexp prec emax m e l) = e + n.
Proof.
  intros Hm n. unfold shr_fexp, shr. subst n.
  destruct (fexp prec emax (Zdigits2 m + e) - e) as [|p|p] eqn:E; simpl fst; simpl snd.
  - rewrite shr_record_of_loc_m. change (Z.max 0 0) with 0. rewrite Z.div_1_r. split; [reflexivity | lia].
  - rewrite iter_pos_shr_m by (rewrite shr_record_of_loc_m; exact Hm).
    rewrite shr_record_of_loc_m. split; reflexivity.
  - rewrite shr_record_of_loc_m. change (Z.max 0 (Z.neg p)) with 0. rewrite Z.div_1_r. split; [reflexivity | lia].
Qed.

Lemma shr_fexp_nonneg (m e : Z) (l : location) :
  0 <= m -> 0 <= shr_m (fst (shr_fexp prec emax m e l)).
Proof.
  intros Hm. destruct (shr_fexp_spec m e l Hm) as [-> _].
  apply Z.div_pos; [exact Hm | apply Z.pow_pos_nonneg; lia].
Qed.

Lemma shr_fexp_exponent (m e : Z) (l : location) :
  0 <= m -> emin prec emax <= snd (shr_fexp prec emax m e l).
Proof.
  intros Hm. destruct (shr_fexp_spec m e l Hm) as [_ ->].
  unfold fexp. lia.
Qed.

Lemma shr_fexp_pos (m e : Z) (l : location) :
  0 < m -> emin prec emax <= e ->
  0 < shr_m (fst (shr_fexp prec emax m e l)).
Proof.
  intros Hm He. destruct (shr_fexp_spec m e l) as [-> _]; [lia|].
  destruct m as [|p|p]; try lia. simpl Zdigits2.
  pose proof (digits2_pos_lower p) as Hd.
  set (d := Z.pos (digits2_pos p)) in *.
  set (n := Z.max 0 (fexp prec emax (d + e) - e)).
  assert (Hn : 0 <= n <= d - 1) by (unfold n, fexp, prec in *; lia).
  apply Z.div_str_pos. split; [apply Z.pow_pos_nonneg; lia|].
  transitivity (2 ^ (d - 1)); [apply Z.pow_le_mono_r; lia | exact Hd].
Qed.

Lemma round_nearest_even_ge (m : Z) (l : location) :
  m <= round_nearest_even m l.
Proof. destruct l as [|[]]; simpl; try lia. destruct (Z.even m); lia. Qed.

Lemma binary_round_aux_rounded (s : bool) (m e : Z) (l : location) :
  0 <= m -> rounded s (binary_round_aux prec emax s m e l).
Proof.
  intros Hm. unfold binary_round_aux.
  pose proof (shr_fexp_nonneg m e l Hm) as H1.
  destruct (shr_fexp prec emax m e l) as [mrs' e'] eqn:E1. simpl in H1.
  pose proof (round_nearest_even_ge (shr_m mrs') (loc_of_shr_record mrs')) as H2.
  set (m1 := round_nearest_even (shr_m mrs') (loc_of_shr_record mrs')) in *.
  assert (Hm1 : 0 <= m1) by lia.
  pose proof (shr_fexp_nonneg m1 e' loc_Exact Hm1) as H3.
  pose proof (shr_fexp_exponent m1 e' loc_Exact Hm1) as H4.
  destruct (shr_fexp prec emax m1 e' loc_Exact) as [mrs'' e''] eqn:E2.
  simpl in H3, H4.
  destruct (shr_m mrs'') as [|p|p]; [constructor | | lia].
  destruct (e'' <=? emax - prec); constructor. exact H4.
Qed.

Lemma binary_round_aux_nonzero (s : bool) (m e : Z) (l : location) :
  0 < m -> emin prec emax <= e ->
  rounded_nonzero s (binary_round_aux prec emax s m e l).
Proof.
  intros Hm He. unfold binary_round_aux.
  pose proof (shr_fexp_pos m e l Hm He) as H1.
  pose proof (shr_fexp_exponent m e l ltac:(lia)) as H1e.
  destruct (shr_fexp prec emax m e l) as [mrs' e'] eqn:E1. simpl in H1, H1e.
  pose proof (round_nearest_even_ge (shr_m mrs') (loc_of_shr_record mrs')) as H2.
  set (m1 := round_nearest_even (shr_m mrs') (loc_of_shr_record mrs')) in *.
  assert (Hm1 : 0 < m1) by lia.
  pose proof (shr_fexp_pos m1 e' loc_Exact Hm1 H1e) as H3.
  pose proof (shr_fexp_exponent m1 e' loc_Exact ltac:(lia)) as H4.
  destruct (shr_fexp prec emax m1 e' loc_Exact) as [mrs'' e''] eqn:E2.
  simpl in H3, H4.
  destruct (shr_m mrs'') as [|p|p]; [lia | | lia].
  destruct (e'' <=? emax - prec); constructor. exact H4.
Qed.

Lemma binary_round_nonzero (s : bool) (m : positive) (e : Z) :
  emin prec emax <= e -> rounded_nonzero s (binary_round prec emax s m e).
Proof.
  intros He. unfold binary_round, shl_align.
  destruct (fexp prec emax (Z.pos (digits2_pos m) + e) - e) as [|p|p] eqn:E;
    apply binary_round_aux_nonzero; try lia.
  unfold fexp in *. lia.
Qed.

Lemma valid_exponent_ok (x : number) : valid x = true -> exponent_ok x.
Proof.
  destruct x as [| | |s m e]; simpl; trivial.
  unfold bounded, canonical_mantissa, fexp.
  intros Hb. apply andb_prop in Hb as [Hc _]. apply Z.eqb_eq in Hc. lia.
Qed.

Lemma rounded_nonzero_positive (x : number) :
  rounded_nonzero false x -> ltb zero x = true /\ exponent_ok x.
Proof. intros [|m e He]; split; simpl; trivial. Qed.

Lemma positive_cases (x : number) :
  ltb zero x = true ->
  x = S754_infinity false \/ exists m e, x = S754_finite false m e.
Proof.
  destruct x as [s|[]| |[] m e]; try (cbv; discriminate); eauto.
Qed.

Lemma nonneg_cases (x : number) :
  nonneg x = true -> (exists s, x = S754_zero s) \/ ltb zero x = true.
Proof.
  destruct x as [s|[]| |[] m e]; try (cbv; discriminate); eauto.
Qed.

Lemma add_finite_positive (mx my : positive) (ex ey : Z) :
  emin prec emax <= ex -> emin prec emax <= ey ->
  rounded_nonzero false
    (add (S754_finite false mx ex) (S754_finite false my ey)).
Proof.
  intros Hx Hy. unfold add, SFadd. cbn [cond_Zopp Z.add binary_normalize].
  apply binary_round_nonzero. lia.
Qed.

Lemma add_positive_l (x y : number) :
  ltb zero x = true -> exponent_ok x -> nonneg y = true -> exponent_ok y ->
  ltb zero (add x y) = true /\ exponent_ok (add x y).
Proof.
  intros Hx Hxe Hy Hye.
  destruct (positive_cases x Hx) as [-> | (mx & ex & ->)];
    destruct (nonneg_cases y Hy) as [[s ->] | Hy'];
    try (destruct (positive_cases y Hy') as [-> | (my & ey & ->)]);
    try (split; [reflexivity | exact I]);
    try (split; [reflexivity | exact Hxe]).
  apply rounded_nonzero_positive, add_finite_positive; assumption.
Qed.

Lemma add_positive_r (x y : number) :
  nonneg x = true -> exponent_ok x -> ltb zero y = true -> exponent_ok y ->
  ltb zero (add x y) = true /\ exponent_ok (add x y).
Proof.
  intros Hx Hxe Hy Hye.
  destruct (positive_cases y Hy) as [-> | (my & ey & ->)];
    destruct (nonneg_cases x Hx) as [[s ->] | Hx'];
    try (destruct (positive_cases x Hx') as [-> | (mx & ex & ->)]);
    try (split; [reflexivity | exact I]);
    try (split; [reflexivity | exact Hye]).
  apply rounded_nonzero_positive, add_finite_positive; assumption.
Qed.

Lemma positive_not_zero (x : number) : ltb zero x = true -> eqb x zero = false.
Proof.
  intros Hx. destruct (positive_cases x Hx) as [-> | (m & e & ->)]; reflexivity.
Qed.

Lemma fold_add_positive (l : list number) (acc : number) :
  ltb zero acc = true -> exponent_ok acc ->
  Forall (fun w => nonneg w = true /\ exponent_ok w) l ->
  ltb zero (fold_left add l acc) = true.
Proof.
  revert acc. induction l as [|w l IH]; intros acc Hacc Hok Hall; simpl.
  - exact Hacc.
  - pose proof (Forall_inv Hall) as [Hw Hwe].
    apply Forall_inv_tail in Hall.
    destruct (add_positive_l acc w Hacc Hok Hw Hwe) as [Hp He].
    apply IH; assumption.
Qed.

(** A sum of non-negative numbers that compares equal to zero has only zero
    terms: no rounding step of an addition of non-negative numbers
    underflows to zero. *)
Lemma fold_add_zero (l : list number) (s : bool) :
  Forall (fun w => nonneg w = true /\ exponent_ok w) l ->
  eqb (fold_left add l (S754_zero s)) zero = true ->
  (exists s', fold_left add l (S754_zero s) = S754_zero s') /\
  Forall (fun w => exists s', w = S754_zero s') l.
Proof.
  revert s. induction l as [|w l IH]; intros s Hall Hsum; cbn [fold_left] in *.
  - split; [eauto | constructor].
  - pose proof (Forall_inv Hall) as [Hw Hwe].
    apply Forall_inv_tail in Hall.
    destruct (nonneg_cases w Hw) as [[sw ->] | Hpos].
    + assert (Hz : exists s1, add (S754_zero s) (S754_zero sw) = S754_zero s1)
        by (destruct s, sw; simpl; eauto).
      destruct Hz as [s1 Hz]. rewrite Hz in Hsum |- *.
      destruct (IH s1 Hall Hsum) as [Htot Hl].
      split; [exact Htot | constructor; eauto].
    + destruct (add_positive_r (S754_zero s) w) as [Hp He];
        [reflexivity | exact I | exact Hpos | exact Hwe |].
      pose proof (fold_add_positive l _ Hp He Hall) as Hfold.
      apply positive_not_zero in Hfold. congruence.
Qed.

Lemma of_nat_rounded (n : nat) : rounded false (of_nat n).
Proof.
  unfold of_nat, binary_normalize.
  destruct (Z.of_nat n) as [|p|p] eqn:E; [constructor | | lia].
  destruct (binary_round_nonzero false p 0) as [|m e He];
    [unfold emin, prec, emax; lia | constructor | constructor; exact He].
Qed.

Lemma div_one_not_NaN (y : number) : rounded false y -> isNaN (div one y) = false.
Proof.
  intros [| |m e He]; try reflexivity.
  unfold div, one, SFdiv, SFdiv_core_binary.
  set (m' := match _ - _ - _ with Z0 => _ | Zpos _ => _ | Zneg _ => _ end).
  assert (Hm' : 0 <= m').
  { subst m'. destruct (_ - _ - _); [lia | apply Z.shiftl_nonneg; lia | lia]. }
  destruct (Z.div_eucl m' (Z.pos m)) as [q r] eqn:Ediv.
  assert (Hq : q = m' / Z.pos m) by (unfold Z.div; rewrite Ediv; reflexivity).
  assert (Hq0 : 0 <= q) by (rewrite Hq; apply Z.div_pos; lia).
  destruct (binary_round_aux_rounded (xorb false false) q
              (Z.min (fexp prec emax (Zdigits2 4503599627370496 + -52 - (Zdigits2 (Z.pos m) + e))) (-52 - e))
              (new_location (Z.pos m) r) Hq0); reflexivity.
Qed.

Lemma uniform_weight_not_NaN (n : nat) : isNaN (div one (of_nat n)) = false.
Proof. apply div_one_not_NaN, of_nat_rounded. Qed.

(** ** Numbers: bounds through rounding *)

Lemma digits2_pos_upper (p : positive) :
  Zpos p < 2 ^ Zpos (digits2_pos p).
Proof.
  induction p as [p IH|p IH|]; simpl digits2_pos.
  - rewrite Pos2Z.inj_succ, Z.pow_succ_r by lia. lia.
  - rewrite Pos2Z.inj_succ, Z.pow_succ_r by lia. lia.
  - reflexivity.
Qed.

Lemma Zdigits2_lower (m : Z) : 0 < m -> 2 ^ (Zdigits2 m - 1) <= m.
Proof. destruct m as [|p|p]; try lia. intros _. apply digits2_pos_lower. Qed.

Lemma Zdigits2_upper (m : Z) : 0 <= m -> m < 2 ^ Zdigits2 m.
Proof.
  destruct m as [|p|p]; try lia; intros _; [reflexivity | apply digits2_pos_upper].
Qed.

Lemma Zdigits2_nonneg (m : Z) : 0 <= Zdigits2 m.
Proof. destruct m; simpl; lia. Qed.

(** [m < 2 ^ k] bounds the number of digits of [m]. *)
Lemma Zdigits2_le (m k : Z) : 0 <= m -> 0 <= k -> m < 2 ^ k -> Zdigits2 m <= k.
Proof.
  intros Hm Hk Hlt. destruct (Z.eq_dec m 0) as [->|Hne]; [simpl; lia|].
  pose proof (Zdigits2_lower m ltac:(lia)) as Hlow.
  pose proof (Zdigits2_nonneg m) as Hd.
  destruct (Z_lt_le_dec k (Zdigits2 m)) as [Hgt|]; [|lia].
  assert (2 ^ k <= 2 ^ (Zdigits2 m - 1)) by (apply Z.pow_le_mono_r; lia).
  lia.
Qed.

Lemma round_nearest_even_le (m : Z) (l : location) :
  round_nearest_even m l <= m + 1.
Proof. destruct l as [|[]]; simpl; try lia. destruct (Z.even m); lia. Qed.

Lemma fexp_mono (a b : Z) : a <= b -> fexp prec emax a <= fexp prec emax b.
Proof. unfold fexp. lia. Qed.

(** A binary64 value below one: its mantissa is below [2 ^ (- e)]. *)
Lemma below_one (m : positive) (e : Z) :
  valid (S754_finite false m e) = true ->
  ltb (S754_finite false m e) one = true ->
  e < 0 /\ Zpos m < 2 ^ (- e).
Proof.
  unfold valid, valid_binary, bounded, canonical_mantissa, ltb, one, SFltb, SFcompare.
  intros Hv Hlt. apply andb_prop in Hv as [Hc _]. apply Z.eqb_eq in Hc.
  pose proof (digits2_pos_upper m) as Hup.
  assert (Hd : Zpos (digits2_pos m) <= 53) by (unfold fexp, prec in Hc; lia).
  destruct (Z.compare_spec e (-52)) as [->|Hlt52|Hgt]; try discriminate.
  - split; [lia|]. change (- -52) with 52.
    destruct (Pos.compare_cont Eq m 4503599627370496) eqn:Ecmp; try discriminate.
    pose proof (proj1 (Pos.compare_lt_iff m 4503599627370496) Ecmp) as Hlt52.
    assert (E52 : 2 ^ 52 = 4503599627370496) by (vm_compute; reflexivity).
    rewrite E52. exact Hlt52.
  - split; [lia|].
    assert (2 ^ Zpos (digits2_pos m) <= 2 ^ (- e)) by (apply Z.pow_le_mono_r; lia).
    lia.
Qed.

(** Scaling a finite non-negative value by a draw below one does not exceed
    the value, after rounding. *)
Lemma mul_below_one_le (mu mt : positive) (eu et : Z) :
  valid (S754_finite false mu eu) = true ->
  ltb (S754_finite false mu eu) one = true ->
  emin prec emax <= et <= emax - prec ->
  Z.pos (digits2_pos mt) <= prec ->
  leb (mul (S754_finite false mu eu) (S754_finite false mt et))
      (S754_finite false mt et) = true.
Proof.
  intros Hu Hu1 Het Hdt.
  destruct (below_one mu eu Hu Hu1) as [Heu Hmu].
  assert (Hc : fexp prec emax (Z.pos (digits2_pos mt) + et) <= et)
    by (unfold fexp; lia).
  destruct Het as [_ Hb].
  unfold mul, SFmul. cbn [xorb]. unfold binary_round_aux.
  set (M := Z.pos (mu * mt)). set (e := eu + et).
  set (dt := Z.pos (digits2_pos mt)) in *.
  assert (HM0 : 0 < M) by (unfold M; lia).
  assert (HMlt : M < Z.pos mt * 2 ^ (- eu)) by (unfold M; rewrite Pos2Z.inj_mul; nia).
  pose proof (digits2_pos_upper mt) as Hmt. fold dt in Hmt.
  (* the magnitude of the product is at most that of [t] *)
  assert (HdM : Zdigits2 M + e <= dt + et).
  { assert (Zdigits2 M <= dt - eu); [|unfold e; lia].
    apply Zdigits2_le; [lia | lia |].
    replace (dt - eu) with (dt + - eu) by lia. rewrite Z.pow_add_r by lia.
    assert (0 < 2 ^ (- eu)) by (apply Z.pow_pos_nonneg; lia). nia. }
  pose proof (fexp_mono _ _ HdM) as Hfexp.
  destruct (shr_fexp_spec M e loc_Exact) as [Hm1 He1]; [lia|].
  destruct (shr_fexp prec emax M e loc_Exact) as [mrs1 e1]. cbn [fst snd] in Hm1, He1.
  set (n1 := Z.max 0 (fexp prec emax (Zdigits2 M + e) - e)) in *.
  assert (Hn1 : 0 <= n1) by (unfold n1; lia).
  assert (He1t : e1 <= et) by (unfold n1, e in *; lia).
  set (K := Z.pos mt * 2 ^ (et - e1)).
  assert (Hpow1 : 0 < 2 ^ n1) by (apply Z.pow_pos_nonneg; lia).
  assert (Hm1K : shr_m mrs1 + 1 <= K).
  { assert (shr_m mrs1 < K); [|lia]. rewrite Hm1.
    apply Z.div_lt_upper_bound; [exact Hpow1|].
    unfold K. replace (- eu) with (n1 + (et - e1)) in HMlt by (unfold e in *; lia).
    rewrite Z.pow_add_r in HMlt by lia. nia. }
  assert (Hm1nn : 0 <= shr_m mrs1) by (rewrite Hm1; apply Z.div_pos; lia).
  pose proof (round_nearest_even_le (shr_m mrs1) (loc_of_shr_record mrs1)) as Hr1.
  pose proof (round_nearest_even_ge (shr_m mrs1) (loc_of_shr_record mrs1)) as Hr2.
  set (m1 := round_nearest_even (shr_m mrs1) (loc_of_shr_record mrs1)) in *.
  assert (Hm1' : 0 <= m1 <= K) by lia.
  destruct (shr_fexp_spec m1 e1 loc_Exact) as [Hm2 He2]; [lia|].
  destruct (shr_fexp prec emax m1 e1 loc_Exact) as [mrs2 e2]. cbn [fst snd] in Hm2, He2.
  set (n2 := Z.max 0 (fexp prec emax (Zdigits2 m1 + e1) - e1)) in *.
  assert (HKlt : K < 2 ^ (dt + (et - e1))).
  { unfold K. rewrite Z.pow_add_r by lia.
    assert (0 < 2 ^ (et - e1)) by (apply Z.pow_pos_nonneg; lia). nia. }
  assert (Hd1 : Zdigits2 m1 + e1 <= dt + et).
  { assert (Zdigits2 m1 <= dt + (et - e1)); [|lia].
    apply Zdigits2_le; lia. }
  pose proof (fexp_mono _ _ Hd1) as Hfexp2.
  assert (Hn2 : 0 <= n2) by (unfold n2; lia).
  assert (He2t : e2 <= et) by (unfold n2 in *; lia).
  assert (Hm2le : shr_m mrs2 <= Z.pos mt * 2 ^ (et - e2)).
  { rewrite Hm2.
    assert (Hpow2 : 0 < 2 ^ n2) by (apply Z.pow_pos_nonneg; lia).
    apply Z.div_le_upper_bound; [exact Hpow2|].
    unfold K in Hm1'.
    replace (et - e1) with (n2 + (et - e2)) in Hm1' by lia.
    rewrite Z.pow_add_r in Hm1' by lia. nia. }
  assert (Hm2nn : 0 <= shr_m mrs2) by (rewrite Hm2; apply Z.div_pos; [lia | apply Z.pow_pos_nonneg; lia]).
  destruct (shr_m mrs2) as [|m2|m2] eqn:Em2; [reflexivity | | lia].
  replace (e2 <=? emax - prec) with true by (symmetry; apply Z.leb_le; lia).
  unfold leb, SFleb, SFcompare.
  destruct (Z.compare_spec e2 et) as [->|Hlt|Hgt]; [| reflexivity | lia].
  rewrite Z.sub_diag, Z.mul_1_r in Hm2le.
  change (Pos.compare_cont Eq m2 mt) with (m2 ?= mt)%positive.
  destruct (Pos.compare_spec m2 mt); [reflexivity | reflexivity | lia].
Qed.

(** The scaled draw [Math.random() * total] never exceeds the total. *)
Lemma mul_draw_le (u t : number) :
  valid u = true -> nonneg u = true -> ltb u one = true ->
  bounded_value t ->
  leb (mul u t) t = true.
Proof.
  intros Hv Hnn Hlt Ht.
  destruct t as [st| | |[] mt et]; try contradiction.
  - destruct u as [su|[]| |[] mu eu]; try discriminate; destruct st; reflexivity.
  - destruct Ht as [Het Hdt].
    destruct u as [su|[]| |[] mu eu]; try discriminate.
    + destruct su; reflexivity.
    + apply mul_below_one_le; assumption.
Qed.

(** What a rounding can give, with the bounds on its mantissa and
    exponent: [e2] is the exponent the two shifts arrive at. *)
Lemma binary_round_aux_shape (s : bool) (M e : Z) (l : location) :
  0 <= M ->
  exists e2,
    emin prec emax <= e2 /\ e <= e2 /\
    e2 <= Z.max e (fexp prec emax (Zdigits2 M + e + 1)) /\
    match binary_round_aux prec emax s M e l with
    | S754_zero s' => s' = s
    | S754_infinity s' => s' = s /\ emax - prec < e2
    | S754_nan => False
    | S754_finite s' m2 e2' =>
        s' = s /\ e2' = e2 /\ e2 <= emax - prec /\
        Z.pos (digits2_pos m2) <= prec
    end.
Proof.
  intros HM. unfold binary_round_aux.
  destruct (shr_fexp_spec M e l HM) as [Hm1 He1].
  destruct (shr_fexp prec emax M e l) as [mrs1 e1]. cbn [fst snd] in Hm1, He1.
  set (n1 := Z.max 0 (fexp prec emax (Zdigits2 M + e) - e)) in *.
  assert (Hn1 : 0 <= n1) by (unfold n1; lia).
  assert (Hpow1 : 0 < 2 ^ n1) by (apply Z.pow_pos_nonneg; lia).
  assert (Hm1nn : 0 <= shr_m mrs1) by (rewrite Hm1; apply Z.div_pos; lia).
  pose proof (round_nearest_even_le (shr_m mrs1) (loc_of_shr_record mrs1)) as Hr1.
  pose proof (round_nearest_even_ge (shr_m mrs1) (loc_of_shr_record mrs1)) as Hr2.
  set (m1 := round_nearest_even (shr_m mrs1) (loc_of_shr_record mrs1)) in *.
  assert (Hm1' : 0 <= m1) by lia.
  (* the rounded mantissa has at most one digit more than the shifted one *)
  assert (Hf1 : fexp prec emax (Zdigits2 m1 + e1)
                <= Z.max e (fexp prec emax (Zdigits2 M + e + 1))).
  { pose proof (Zdigits2_upper M HM) as HMup.
    pose proof (Zdigits2_nonneg M) as HdM.
    destruct (Z_le_gt_dec n1 (Zdigits2 M)) as [Hle|Hgt].
    - assert (Zdigits2 m1 <= Zdigits2 M - n1 + 1);
        [|transitivity (fexp prec emax (Zdigits2 M + e + 1));
          [apply fexp_mono; lia | lia]].
      apply Zdigits2_le; [lia | lia |].
      assert (shr_m mrs1 < 2 ^ (Zdigits2 M - n1)).
      { rewrite Hm1. apply Z.div_lt_upper_bound; [exact Hpow1|].
        rewrite <- Z.pow_add_r by lia.
        replace (n1 + (Zdigits2 M - n1)) with (Zdigits2 M) by lia. exact HMup. }
      rewrite Z.pow_add_r by lia. change (2 ^ 1) with 2. lia.
    - assert (shr_m mrs1 = 0).
      { rewrite Hm1. apply Z.div_small. split; [exact HM|].
        assert (2 ^ Zdigits2 M <= 2 ^ n1) by (apply Z.pow_le_mono_r; lia). lia. }
      assert (Zdigits2 m1 <= 1)
        by (apply Zdigits2_le; [lia | lia | change (2 ^ 1) with 2; lia]).
      unfold n1, fexp, prec in *. lia. }
  destruct (shr_fexp_spec m1 e1 loc_Exact Hm1') as [Hm2 He2].
  destruct (shr_fexp prec emax m1 e1 loc_Exact) as [mrs2 e2]. cbn [fst snd] in Hm2, He2.
  set (n2 := Z.max 0 (fexp prec emax (Zdigits2 m1 + e1) - e1)) in *.
  assert (Hn2 : 0 <= n2) by (unfold n2; lia).
  assert (Hpow2 : 0 < 2 ^ n2) by (apply Z.pow_pos_nonneg; lia).
  assert (Hm2nn : 0 <= shr_m mrs2) by (rewrite Hm2; apply Z.div_pos; lia).
  assert (Hf0 : fexp prec emax (Zdigits2 M + e) <= fexp prec emax (Zdigits2 M + e + 1))
    by (apply fexp_mono; lia).
  exists e2. split; [unfold n1, n2, fexp in *; lia|].
  split; [lia|]. split; [unfold n1, n2 in *; lia|].
  destruct (shr_m mrs2) as [|m2|m2] eqn:Em2; [reflexivity | | lia].
  destruct (e2 <=? emax - prec) eqn:Eb.
  - apply Z.leb_le in Eb.
    split; [reflexivity|]. split; [reflexivity|]. split; [exact Eb|].
    change (Z.pos (digits2_pos m2)) with (Zdigits2 (Z.pos m2)).
    apply Zdigits2_le; [lia | unfold prec; lia |].
    rewrite Hm2. apply Z.div_lt_upper_bound; [exact Hpow2|].
    rewrite <- Z.pow_add_r by (unfold prec; lia).
    pose proof (Zdigits2_upper m1 Hm1') as Hup.
    pose proof (Zdigits2_nonneg m1) as Hd1nn.
    assert (2 ^ Zdigits2 m1 <= 2 ^ (n2 + prec)); [|lia].
    apply Z.pow_le_mono_r; [lia|]. unfold n2, fexp. lia.
  - apply Z.leb_gt in Eb. split; [reflexivity | lia].
Qed.

Lemma pow2_split (a b : Z) : 0 <= a -> 0 <= b -> 2 ^ (a + b) = 2 ^ a * 2 ^ b.
Proof. intros. apply Z.pow_add_r; assumption. Qed.

Lemma pow2_pos (a : Z) : 0 <= a -> 0 < 2 ^ a.
Proof. intros. apply Z.pow_pos_nonneg; lia. Qed.

(** Rounding an aligned mantissa whose value is below a bound of at most
    53 significant bits gives a value that does not exceed the bound. *)
Lemma binary_round_aux_upper (M e Nb eb : Z) :
  0 < M -> emin prec emax <= e ->
  e <= fexp prec emax (Zdigits2 M + e) ->
  0 < Nb -> Zdigits2 Nb <= prec ->
  emin prec emax <= eb <= emax - prec ->
  M * 2 ^ (e - emin prec emax) < Nb * 2 ^ (eb - emin prec emax) ->
  bounded_value (binary_round_aux prec emax false M e loc_Exact) /\
  scaled (binary_round_aux prec emax false M e loc_Exact)
  <= Nb * 2 ^ (eb - emin prec emax).
Proof.
  intros HM He Hal HNb HdNb Heb Hlt.
  set (L := emin prec emax) in *.
  pose proof (Zdigits2_lower M HM) as HMlow.
  pose proof (Zdigits2_upper Nb ltac:(lia)) as HNup.
  pose proof (Zdigits2_nonneg M) as HdM.
  pose proof (Zdigits2_nonneg Nb) as HdN.
  assert (HdM1 : 1 <= Zdigits2 M) by (destruct M; simpl; lia).
  (* magnitudes *)
  assert (Hmag : Zdigits2 M + e <= Zdigits2 Nb + eb).
  { destruct (Z_le_gt_dec (Zdigits2 M + e) (Zdigits2 Nb + eb)) as [|Hgt]; [assumption|].
    exfalso.
    assert (H1 : 2 ^ (Zdigits2 M - 1) * 2 ^ (e - L) <= M * 2 ^ (e - L))
      by (apply Z.mul_le_mono_nonneg_r; [apply Z.lt_le_incl, pow2_pos; lia | exact HMlow]).
    assert (H2 : Nb * 2 ^ (eb - L) < 2 ^ Zdigits2 Nb * 2 ^ (eb - L))
      by (apply Z.mul_lt_mono_pos_r; [apply pow2_pos; lia | exact HNup]).
    rewrite <- pow2_split in H1, H2 by lia.
    assert (2 ^ (Zdigits2 Nb + (eb - L)) <= 2 ^ (Zdigits2 M - 1 + (e - L)))
      by (apply Z.pow_le_mono_r; lia).
    lia. }
  assert (Hfb : fexp prec emax (Zdigits2 Nb + eb) <= eb)
    by (unfold fexp, L in *; lia).
  pose proof (fexp_mono _ _ Hmag) as Hfm.
  unfold binary_round_aux.
  destruct (shr_fexp_spec M e loc_Exact) as [Hm1 He1]; [lia|].
  destruct (shr_fexp prec emax M e loc_Exact) as [mrs1 e1]. cbn [fst snd] in Hm1, He1.
  set (n1 := Z.max 0 (fexp prec emax (Zdigits2 M + e) - e)) in *.
  assert (Hn1 : 0 <= n1) by (unfold n1; lia).
  assert (He1b : e1 <= eb) by (unfold n1 in *; lia).
  assert (He1L : L <= e1) by lia.
  set (K := Nb * 2 ^ (eb - e1)).
  assert (Hpow1 : 0 < 2 ^ n1) by (apply pow2_pos; lia).
  assert (HK : K * 2 ^ (e1 - L) = Nb * 2 ^ (eb - L)).
  { unfold K. rewrite <- Z.mul_assoc, <- pow2_split by lia. f_equal. f_equal. lia. }
  assert (Hm1K : shr_m mrs1 + 1 <= K).
  { assert (shr_m mrs1 < K); [|lia]. rewrite Hm1.
    apply Z.div_lt_upper_bound; [exact Hpow1|].
    rewrite <- HK in Hlt. replace (e1 - L) with (n1 + (e - L)) in Hlt by lia.
    rewrite pow2_split in Hlt by lia.
    assert (0 < 2 ^ (e - L)) by (apply pow2_pos; lia). nia. }
  assert (Hm1nn : 0 <= shr_m mrs1) by (rewrite Hm1; apply Z.div_pos; lia).
  pose proof (round_nearest_even_le (shr_m mrs1) (loc_of_shr_record mrs1)) as Hr1.
  pose proof (round_nearest_even_ge (shr_m mrs1) (loc_of_shr_record mrs1)) as Hr2.
  set (m1 := round_nearest_even (shr_m mrs1) (loc_of_shr_record mrs1)) in *.
  assert (Hm1' : 0 <= m1 <= K) by lia.
  destruct (shr_fexp_spec m1 e1 loc_Exact) as [Hm2 He2]; [lia|].
  destruct (shr_fexp prec emax m1 e1 loc_Exact) as [mrs2 e2]. cbn [fst snd] in Hm2, He2.
  set (n2 := Z.max 0 (fexp prec emax (Zdigits2 m1 + e1) - e1)) in *.
  assert (HKlt : K < 2 ^ (Zdigits2 Nb + (eb - e1))).
  { unfold K. rewrite pow2_split by lia.
    assert (0 < 2 ^ (eb - e1)) by (apply pow2_pos; lia). nia. }
  assert (Hd1 : Zdigits2 m1 + e1 <= Zdigits2 Nb + eb).
  { assert (Zdigits2 m1 <= Zdigits2 Nb + (eb - e1)); [|lia].
    apply Zdigits2_le; lia. }
  pose proof (fexp_mono _ _ Hd1) as Hfexp2.
  assert (Hn2 : 0 <= n2) by (unfold n2; lia).
  assert (He2b : e2 <= eb) by (unfold n2 in *; lia).
  assert (Hpow2 : 0 < 2 ^ n2) by (apply pow2_pos; lia).
  assert (Hm2nn : 0 <= shr_m mrs2) by (rewrite Hm2; apply Z.div_pos; lia).
  assert (Hm2v : shr_m mrs2 * 2 ^ (e2 - L) <= Nb * 2 ^ (eb - L)).
  { rewrite <- HK. replace (e2 - L) with (n2 + (e1 - L)) by lia.
    rewrite pow2_split by lia.
    assert (shr_m mrs2 * 2 ^ n2 <= m1).
    { rewrite Hm2. rewrite Z.mul_comm. apply Z.mul_div_le. exact Hpow2. }
    assert (0 < 2 ^ (e1 - L)) by (apply pow2_pos; lia). nia. }
  assert (Hd2 : forall m2, shr_m mrs2 = Z.pos m2 -> Z.pos (digits2_pos m2) <= prec).
  { intros m2 Em2. change (Z.pos (digits2_pos m2)) with (Zdigits2 (Z.pos m2)).
    rewrite <- Em2. apply Zdigits2_le; [lia | unfold prec; lia |].
    rewrite Hm2. apply Z.div_lt_upper_bound; [exact Hpow2|].
    rewrite <- pow2_split by (unfold prec; lia).
    pose proof (Zdigits2_upper m1 ltac:(lia)) as Hup.
    pose proof (Zdigits2_nonneg m1) as Hd1nn.
    assert (2 ^ Zdigits2 m1 <= 2 ^ (n2 + prec)); [|lia].
    apply Z.pow_le_mono_r; [lia|]. unfold n2, fexp. lia. }
  destruct (shr_m mrs2) as [|m2|m2] eqn:Em2; [| | lia].
  - split; [exact I | simpl; apply Z.lt_le_incl; apply Z.mul_pos_pos; [lia | apply pow2_pos; lia]].
  - replace (e2 <=? emax - prec) with true by (symmetry; apply Z.leb_le; lia).
    split; [|exact Hm2v].
    split; [lia | apply Hd2; reflexivity].
Qed.

(** ** The value of a sum *)

Lemma iter_xO_value (m d : positive) :
  Z.pos (Pos.iter xO m d) = Z.pos m * 2 ^ Z.pos d.
Proof.
  induction d as [|d IH] using Pos.peano_ind.
  - simpl. lia.
  - rewrite Pos.iter_succ, Pos2Z.inj_xO, IH, Pos2Z.inj_succ, Z.pow_succ_r by lia.
    lia.
Qed.

Lemma iter_xO_digits (m d : positive) :
  Z.pos (digits2_pos (Pos.iter xO m d)) = Z.pos (digits2_pos m) + Z.pos d.
Proof.
  induction d as [|d IH] using Pos.peano_ind.
  - simpl. lia.
  - rewrite Pos.iter_succ. simpl digits2_pos.
    rewrite Pos2Z.inj_succ, IH, Pos2Z.inj_succ. lia.
Qed.

(** [shl_align] lowers the exponent to [Z.min ex ex'] and keeps the value and
    the magnitude. *)
Lemma shl_align_spec (mx : positive) (ex ex' : Z) :
  snd (shl_align mx ex ex') = Z.min ex ex' /\
  Z.pos (fst (shl_align mx ex ex')) = Z.pos mx * 2 ^ (ex - Z.min ex ex') /\
  Z.pos (digits2_pos (fst (shl_align mx ex ex'))) + Z.min ex ex'
  = Z.pos (digits2_pos mx) + ex.
Proof.
  unfold shl_align. destruct (ex' - ex) as [|d|d] eqn:E; cbn [fst snd].
  - replace (Z.min ex ex') with ex by lia. rewrite Z.sub_diag. lia.
  - replace (Z.min ex ex') with ex by lia. rewrite Z.sub_diag. lia.
  - replace (Z.min ex ex') with ex' by lia.
    rewrite iter_xO_value, iter_xO_digits.
    replace (ex - ex') with (Z.pos d) by lia. lia.
Qed.

(** Rounding a positive integer mantissa at an exponent not below [emin]:
    the value does not exceed a bound it is below. *)
Lemma binary_round_upper (m : positive) (e Nb eb : Z) :
  emin prec emax <= e ->
  0 < Nb -> Zdigits2 Nb <= prec ->
  emin prec emax <= eb <= emax - prec ->
  Z.pos m * 2 ^ (e - emin prec emax) < Nb * 2 ^ (eb - emin prec emax) ->
  bounded_value (binary_round prec emax false m e) /\
  scaled (binary_round prec emax false m e) <= Nb * 2 ^ (eb - emin prec emax).
Proof.
  intros He HNb HdNb Heb Hlt. unfold binary_round.
  destruct (shl_align_spec m e (fexp prec emax (Z.pos (digits2_pos m) + e)))
    as (He' & Hm' & Hd').
  destruct (shl_align m e (fexp prec emax (Z.pos (digits2_pos m) + e)))
    as [mz ez]. cbn [fst snd] in He', Hm', Hd'.
  apply binary_round_aux_upper; try assumption.
  all: [> lia | unfold fexp in *; lia | | ].
  - simpl Zdigits2. rewrite <- He' in Hd'. rewrite Hd'. lia.
  - rewrite Hm', <- Z.mul_assoc, <- pow2_split by (unfold fexp in *; lia).
    replace (e - Z.min e (fexp prec emax (Z.pos (digits2_pos m) + e)) + (ez - emin prec emax))
      with (e - emin prec emax) by lia.
    exact Hlt.
Qed.

Lemma scaled_nonneg (x : number) : 0 <= scaled x.
Proof.
  destruct x as [| | |s m e]; simpl; lia.
Qed.

(** The sum of two bounded values whose exact sum is below a bound is
    bounded and does not exceed the bound. *)
Lemma add_upper (x y : number) (Nb eb : Z) :
  bounded_value x -> bounded_value y ->
  0 < Nb -> Zdigits2 Nb <= prec ->
  emin prec emax <= eb <= emax - prec ->
  scaled x + scaled y < Nb * 2 ^ (eb - emin prec emax) ->
  bounded_value (add x y) /\
  scaled (add x y) <= Nb * 2 ^ (eb - emin prec emax).
Proof.
  intros Hx Hy HNb HdNb Heb Hlt.
  pose proof (scaled_nonneg x) as Hsx. pose proof (scaled_nonneg y) as Hsy.
  destruct x as [sx| | |[] mx ex]; try contradiction;
    destruct y as [sy| | |[] my ey]; try contradiction.
  - destruct sx, sy; simpl; split; trivial; lia.
  - simpl add. split; [exact Hy | simpl in *; lia].
  - simpl add. split; [exact Hx | simpl in *; lia].
  - destruct Hx as [[Hex _] _]. destruct Hy as [[Hey _] _].
    unfold add, SFadd. cbn [cond_Zopp].
    destruct (shl_align_spec mx ex (Z.min ex ey)) as (_ & Hmx & _).
    destruct (shl_align_spec my ey (Z.min ex ey)) as (_ & Hmy & _).
    set (ax := fst (shl_align mx ex (Z.min ex ey))) in *.
    set (ay := fst (shl_align my ey (Z.min ex ey))) in *.
    change (Z.pos ax + Z.pos ay) with (Z.pos (ax + ay)).
    cbn [binary_normalize].
    apply binary_round_upper; try assumption; [lia|].
    rewrite Pos2Z.inj_add, Hmx, Hmy.
    replace (Z.min ex (Z.min ex ey)) with (Z.min ex ey) by lia.
    replace (Z.min ey (Z.min ex ey)) with (Z.min ex ey) by lia.
    rewrite Z.mul_add_distr_r, <- !Z.mul_assoc, <- !pow2_split by lia.
    replace (ex - Z.min ex ey + (Z.min ex ey - emin prec emax))
      with (ex - emin prec emax) by lia.
    replace (ey - Z.min ex ey + (Z.min ex ey - emin prec emax))
      with (ey - emin prec emax) by lia.
    exact Hlt.
Qed.

(** ** The uniform weight [1 / n] and the total of the uniform vector *)

(** The exponent of the number denoting a positive integer is at least that
    of the numbers in [[1, 2)]. *)
Lemma of_nat_exponent (n : nat) :
  n <> 0%nat ->
  match of_nat n with
  | S754_infinity false => True
  | S754_finite false m e => -52 <= e
  | _ => False
  end.
Proof.
  intros Hn. unfold of_nat, binary_normalize.
  destruct (Z.of_nat n) as [|p|p] eqn:E; [lia | | lia].
  pose proof (binary_round_nonzero false p 0) as Hnz.
  unfold binary_round in *.
  destruct (shl_align_spec p 0 (fexp prec emax (Z.pos (digits2_pos p) + 0)))
    as (He' & _ & _).
  destruct (shl_align p 0 (fexp prec emax (Z.pos (digits2_pos p) + 0)))
    as [mz ez]. cbn [fst snd] in He'.
  destruct (binary_round_aux_shape false (Z.pos mz) ez loc_Exact)
    as (e2 & _ & Hge & _ & Hshape); [lia|].
  destruct Hnz as [|m e He]; [unfold emin, prec, emax; lia | exact I |].
  destruct Hshape as (_ & -> & _).
  assert (1 <= Z.pos (digits2_pos p)) by lia.
  unfold fexp, prec, emax, emin in He'. lia.
Qed.

Lemma SFdiv_core_binary_bound (m1 e1 m2 e2 : Z) :
  0 < m1 -> 0 < m2 ->
  0 <= fst (fst (SFdiv_core_binary prec emax m1 e1 m2 e2)) /\
  snd (fst (SFdiv_core_binary prec emax m1 e1 m2 e2)) <= e1 - e2 /\
  Zdigits2 (fst (fst (SFdiv_core_binary prec emax m1 e1 m2 e2)))
  + snd (fst (SFdiv_core_binary prec emax m1 e1 m2 e2))
  <= Zdigits2 m1 + e1 - e2.
Proof.
  intros Hm1 Hm2. unfold SFdiv_core_binary.
  set (e' := Z.min (fexp prec emax (Zdigits2 m1 + e1 - (Zdigits2 m2 + e2))) (e1 - e2)).
  set (s := e1 - e2 - e').
  assert (Hs : 0 <= s) by (unfold s, e'; lia).
  set (m' := match s with Z0 => m1 | Zpos _ => Z.shiftl m1 s | Zneg _ => 0 end).
  assert (Hm' : m' = m1 * 2 ^ s).
  { unfold m'. destruct s as [|p|p] eqn:Es; [lia | apply Z.shiftl_mul_pow2; lia | lia]. }
  destruct (Z.div_eucl m' m2) as [q r] eqn:Ediv. cbn [fst snd].
  assert (Hq : q = m' / m2) by (unfold Z.div; rewrite Ediv; reflexivity).
  assert (Hpow : 0 < 2 ^ s) by (apply pow2_pos; exact Hs).
  assert (Hm'0 : 0 <= m') by (rewrite Hm'; nia).
  assert (Hq0 : 0 <= q) by (rewrite Hq; apply Z.div_pos; lia).
  assert (Hqle : q <= m').
  { rewrite Hq. apply Z.div_le_upper_bound; [lia | nia]. }
  split; [exact Hq0|]. split; [unfold e'; lia|].
  assert (Zdigits2 q <= Zdigits2 m1 + s); [|unfold s in *; lia].
  pose proof (Zdigits2_upper m1 ltac:(lia)) as Hup.
  pose proof (Zdigits2_nonneg m1) as Hd1.
  apply Zdigits2_le; [exact Hq0 | lia |].
  rewrite pow2_split by lia. nia.
Qed.

(** [1 / n] is a bounded value below 4. *)
Lemma uniform_weight_bounded (n : nat) :
  n <> 0%nat ->
  bounded_value (div one (of_nat n)) /\
  scaled (div one (of_nat n)) < 2 ^ (54 - emin prec emax).
Proof.
  intros Hn. pose proof (of_nat_exponent n Hn) as Hy.
  assert (Hbig : 0 < 2 ^ (54 - emin prec emax))
    by (apply pow2_pos; unfold emin, prec, emax; lia).
  destruct (of_nat n) as [s|[]| |[] mn en]; try contradiction.
  - simpl. split; [exact I | exact Hbig].
  - unfold div, one, SFdiv. cbn [xorb].
    destruct (SFdiv_core_binary_bound 4503599627370496 (-52) (Z.pos mn) en)
      as (Hq0 & He' & Hdq); [lia | lia |].
    destruct (SFdiv_core_binary prec emax 4503599627370496 (-52) (Z.pos mn) en)
      as [[q e'] lz]. cbn [fst snd] in Hq0, He', Hdq.
    change (Zdigits2 4503599627370496) with 53 in Hdq.
    destruct (binary_round_aux_shape false q e' lz Hq0)
      as (e2 & Hlow & _ & Hup & Hshape).
    assert (He2 : e2 <= 1) by (unfold fexp, prec, emax, emin in *; lia).
    destruct (binary_round_aux prec emax false q e' lz) as [s|s| |s m2 e2'].
    + split; [exact I | exact Hbig].
    + unfold emax, prec in Hshape. lia.
    + contradiction.
    + destruct Hshape as (-> & -> & Hb & Hd). split; [split; [lia | exact Hd]|].
      simpl scaled.
      pose proof (digits2_pos_upper m2) as Hm2.
      assert (2 ^ Z.pos (digits2_pos m2) <= 2 ^ prec)
        by (apply Z.pow_le_mono_r; lia).
      assert (Hp : 0 < 2 ^ (e2 - emin prec emax)) by (apply pow2_pos; lia).
      assert (Hle : 2 ^ (e2 - emin prec emax) <= 2 ^ (1 - emin prec emax))
        by (apply Z.pow_le_mono_r; lia).
      replace (54 - emin prec emax) with (prec + (1 - emin prec emax))
        by (unfold prec; lia).
      rewrite pow2_split by (unfold emin, prec, emax; lia).
      assert (0 < 2 ^ prec) by (apply pow2_pos; unfold prec; lia).
      nia.
Qed.

(** Adding [j] times a bounded weight below 4 to a bounded accumulator that
    does not exceed [8 k] gives a bounded value that does not exceed
    [8 (k + j)]: the running sum cannot overflow. *)
Lemma fold_add_bounded (w : number) (j : nat) (acc : number) (k : Z) :
  bounded_value w -> scaled w < 2 ^ (54 - emin prec emax) ->
  bounded_value acc -> 0 <= k ->
  scaled acc <= 2 * k * 2 ^ (54 - emin prec emax) ->
  k + Z.of_nat j < 2 ^ 51 ->
  bounded_value (fold_left add (replicate j w) acc) /\
  scaled (fold_left add (replicate j w) acc)
  <= 2 * (k + Z.of_nat j) * 2 ^ (54 - emin prec emax).
Proof.
  intros Hw Hwlt. revert acc k.
  induction j as [|j IH]; intros acc k Hacc Hk Hle Hsmall; cbn [replicate fold_left].
  - split; [exact Hacc|]. replace (k + Z.of_nat 0) with k by lia. exact Hle.
  - destruct (add_upper acc w (2 * (k + 1)) 54) as [Hb Hs];
      try assumption; try lia.
    + apply Zdigits2_le; [lia | unfold prec; lia |].
      assert (E : 2 ^ prec = 4 * 2 ^ 51) by (vm_compute; reflexivity).
      rewrite E. lia.
    + unfold emin, emax, prec. lia.
    + destruct (IH (add acc w) (k + 1) Hb ltac:(lia) Hs ltac:(lia)) as [Hb' Hs'].
      split; [exact Hb'|].
      replace (k + Z.of_nat (S j)) with (k + 1 + Z.of_nat j) by lia. exact Hs'.
Qed.

Lemma reduce_sum_uniform_bounded (n : nat) :
  n <> 0%nat -> Z.of_nat n < 2 ^ 32 ->
  bounded_value (reduce_sum (uniform n)).
Proof.
  intros Hn Hlen.
  destruct (uniform_weight_bounded n Hn) as [Hw Hwlt].
  apply (fold_add_bounded (div one (of_nat n)) n zero 0 Hw Hwlt);
    [exact I | lia | simpl; lia |].
  assert (E : 2 ^ 51 = 524288 * 2 ^ 32) by (vm_compute; reflexivity).
  rewrite E. lia.
Qed.

(** With uniform weights, the scaled draw never exceeds the total. *)
Lemma uniform_draw_in_range (n : nat) (u : number) :
  n <> 0%nat -> Z.of_nat n < 2 ^ 32 -> unit_draw u ->
  leb (mul u (reduce_sum (uniform n))) (reduce_sum (uniform n)) = true.
Proof.
  intros Hn Hlen (Hv & Hnn & Hlt).
  apply mul_draw_le; try assumption. apply reduce_sum_uniform_bounded; assumption.
Qed.

(** ** Arrays *)

Lemma every_Forall {X : Type} (p : X -> bool) (a : list X) :
  every p a = true <-> Forall (fun x => p x = true) a.
Proof.
  unfold every. rewrite forallb_forall, Forall_forall.
  split; intros Hall x Hx; apply Hall; rewrite ?list_elem_of_In in *; exact Hx.
Qed.

Lemma every_false_of_elem {X : Type} (p : X -> bool) (a : list X) (x : X) :
  x ∈ a -> p x = false -> every p a = false.
Proof.
  intros Hx Hp. destruct (every p a) eqn:E; [|reflexivity].
  apply every_Forall in E. rewrite Forall_forall in E.
  apply list_elem_of_In in Hx. specialize (E x Hx). congruence.
Qed.

Lemma fill_replicate {X : Type} (v : X) (a : list X) :
  fill v a = replicate (length a) v.
Proof. induction a as [|x a IH]; simpl; [reflexivity | now rewrite <- IH]. Qed.

(** ** The walk of weightedRandomSelection *)

Section SamplerFacts.
Context {A : Type}.
Implicit Types (elts : list A) (wts : list number) (g : Random).

Lemma walk_NaN elts wts (todo i : nat) (cum : number) :
  walk elts wts NaN todo i cum = None.
Proof.
  revert i cum. induction todo as [|todo IH]; intros i cum; simpl.
  - reflexivity.
  - apply IH.
Qed.

(** One step of the running sum is one more weight under [reduce_sum]. *)
Lemma cumulative_step wts (i : nat) :
  (i < length wts)%nat ->
  add (reduce_sum (take i wts)) (number_at wts i) = cumulative wts i.
Proof.
  intros Hi. unfold cumulative, reduce_sum, number_at.
  destruct (lookup_lt_is_Some_2 wts i Hi) as [w Hw].
  rewrite Hw, (take_S_r wts i w Hw), fold_left_app. reflexivity.
Qed.

Lemma cumulative_last wts :
  wts <> [] -> cumulative wts (length wts - 1) = reduce_sum wts.
Proof.
  intros Hne. unfold cumulative.
  rewrite take_ge; [reflexivity|]. destruct wts; [congruence | simpl; lia].
Qed.

(** The loop returns the element at the first index whose cumulative weight
    reaches the draw. *)
Lemma walk_first_hit elts wts (r : number) (todo i k : nat) :
  (i <= k < i + todo)%nat -> (k < length wts)%nat ->
  leb r (cumulative wts k) = true ->
  (forall j, (i <= j < k)%nat -> leb r (cumulative wts j) = false) ->
  walk elts wts r todo i (reduce_sum (take i wts)) = elts !! k.
Proof.
  revert i. induction todo as [|todo IH]; intros i Hk Hlen Hhit Hmiss.
  - lia.
  - simpl. rewrite cumulative_step by lia.
    destruct (decide (i = k)) as [->|Hik].
    + rewrite Hhit. reflexivity.
    + rewrite (Hmiss i) by lia.
      apply (IH (S i)); [lia | exact Hlen | exact Hhit |].
      intros j Hj. apply Hmiss. lia.
Qed.

(** Without a hit, the loop falls through to [null]. *)
Lemma walk_no_hit elts wts (r : number) (todo i : nat) :
  (i + todo <= length wts)%nat ->
  (forall j, (i <= j < i + todo)%nat -> leb r (cumulative wts j) = false) ->
  walk elts wts r todo i (reduce_sum (take i wts)) = None.
Proof.
  revert i. induction todo as [|todo IH]; intros i Hlen Hmiss.
  - reflexivity.
  - simpl. rewrite cumulative_step by lia. rewrite (Hmiss i) by lia.
    apply (IH (S i)); [lia|]. intros j Hj. apply Hmiss. lia.
Qed.

End SamplerFacts.

Lemma first_true (p : nat -> bool) (n : nat) :
  p n = true ->
  exists k, (k <= n)%nat /\ p k = true /\ forall j, (j < k)%nat -> p j = false.
Proof.
  revert p. induction n as [|n IH]; intros p Hp.
  - exists 0%nat. repeat split; [lia | exact Hp | intros j Hj; lia].
  - destruct (p 0%nat) eqn:E0.
    + exists 0%nat. repeat split; [lia | exact E0 | intros j Hj; lia].
    + destruct (IH (fun j => p (S j)) Hp) as (k & Hk & Hpk & Hlt).
      exists (S k). repeat split; [lia | exact Hpk |].
      intros [|j] Hj; [exact E0 | apply Hlt; lia].
Qed.

Lemma ltb_leb (x y : number) : ltb x y = true -> leb x y = true.
Proof.
  unfold ltb, leb, SFltb, SFleb.
  destruct (SFcompare x y) as [[]|]; congruence.
Qed.

Section SamplerClaims.
Context {A : Type}.
Implicit Types (elts : list A) (wts : list number) (g : Random).

(** When the scaled draw does not exceed the total, the call returns the
    element at the first index whose cumulative weight reaches the draw. *)
Lemma select_from_first_hit elts wts g :
  wts <> [] -> length elts = length wts ->
  leb (mul (tape g (position g)) (reduce_sum wts)) (reduce_sum wts) = true ->
  exists (i : nat) (x : A),
    elts !! i = Some x /\
    leb (mul (tape g (position g)) (reduce_sum wts)) (cumulative wts i) = true /\
    (forall j, (j < i)%nat ->
       leb (mul (tape g (position g)) (reduce_sum wts)) (cumulative wts j) = false) /\
    select_from (mkMemory elts wts g) = (Some x, mkMemory elts wts (advance g)).
Proof.
  intros Hne Hlen Hle.
  set (r := mul (tape g (position g)) (reduce_sum wts)) in *.
  assert (Hlast : leb r (cumulative wts (length wts - 1)) = true)
    by (rewrite cumulative_last by exact Hne; exact Hle).
  destruct (first_true (fun j => leb r (cumulative wts j)) _ Hlast)
    as (k & Hk & Hhit & Hmiss).
  assert (Hpos : (0 < length wts)%nat) by (destruct wts; [congruence | simpl; lia]).
  destruct (lookup_lt_is_Some_2 elts k) as [x Hx]; [lia|].
  exists k, x. repeat split; [exact Hx | exact Hhit | exact Hmiss |].
  unfold select_from, advance. simpl. fold r. f_equal.
  rewrite <- Hx.
  apply (walk_first_hit elts wts r (length elts) 0 k); [lia | lia | exact Hhit |].
  intros j Hj. apply Hmiss. lia.
Qed.

Lemma degenerate_weights_keep wts (w : number) :
  w ∈ wts -> isNaN w = false -> degenerate_weights wts = wts.
Proof.
  intros Hw Hn. unfold degenerate_weights.
  rewrite (every_false_of_elem isNaN wts w Hw Hn). reflexivity.
Qed.

Lemma nonneg_not_NaN (w : number) : nonneg w = true -> isNaN w = false.
Proof. destruct w; simpl; intros E; [reflexivity | reflexivity | discriminate | reflexivity]. Qed.

(** C1 (the code breaks the claim): whenever the weights are non-negative
    and sum to zero, the scaled draw is a zero, the first cumulative weight
    is non-negative, the comparison [<=] of line 38 succeeds at index 0 and
    the call returns the first element instead of [null]. *)
Theorem C1_zero_total_returns_first_element (x : A) (rest : list A) wts g :
  length (x :: rest) = length wts ->
  Forall (fun w => nonneg w = true) wts ->
  eqb (reduce_sum wts) zero = true ->
  isFinite (tape g (position g)) = true ->
  fst (weightedRandomSelection (mkMemory (x :: rest) wts g)) = Some x.
Proof.
  intros Hlen Hnn Hzero Hfin.
  destruct wts as [|w0 wts]; [discriminate|].
  pose proof (Forall_inv Hnn) as Hw0. simpl in Hw0.
  unfold weightedRandomSelection. cbn [elements weights random].
  rewrite (degenerate_weights_keep (w0 :: wts) w0);
    [| apply list_elem_of_here | apply nonneg_not_NaN, Hw0].
  unfold select_from. cbn [Math_random fst snd elements weights random length walk].
  set (total := reduce_sum (w0 :: wts)) in *.
  set (u := tape g (position g)) in *.
  unfold number_at. cbn [lookup list_lookup].
  assert (Hr : exists s, mul u total = S754_zero s).
  { destruct total as [st|[]| |[] mt et]; try (cbv in Hzero; discriminate Hzero).
    destruct u as [su| | |su mu eu]; try discriminate Hfin; simpl; eauto. }
  destruct Hr as [s ->].
  assert (Hle : leb (S754_zero s) (add zero w0) = true).
  { destruct w0 as [s0|[]| |[] m0 e0]; try (cbv in Hw0; discriminate Hw0);
      try reflexivity. destruct s0; reflexivity. }
  rewrite Hle. reflexivity.
Qed.

(** C2: with non-negative finite weights, a positive total and a scaled draw
    [r] in [[0, total)], the call returns the element at the first index [i]
    with [r <= cumulative wts i]; in particular it returns an element. *)
Theorem C2_returns_first_cumulative_hit elts wts g :
  elts <> [] -> length elts = length wts ->
  Forall (fun w => nonneg w = true /\ isFinite w = true) wts ->
  ltb zero (reduce_sum wts) = true ->
  leb zero (mul (tape g (position g)) (reduce_sum wts)) = true ->
  ltb (mul (tape g (position g)) (reduce_sum wts)) (reduce_sum wts) = true ->
  exists (i : nat) (x : A),
    elts !! i = Some x /\
    leb (mul (tape g (position g)) (reduce_sum wts)) (cumulative wts i) = true /\
    (forall j, (j < i)%nat ->
       leb (mul (tape g (position g)) (reduce_sum wts)) (cumulative wts j) = false) /\
    fst (weightedRandomSelection (mkMemory elts wts g)) = Some x.
Proof.
  intros Hne Hlen Hnn Hpos Hr0 Hr.
  destruct wts as [|w0 wts]; [destruct elts; [congruence | discriminate]|].
  destruct (select_from_first_hit elts (w0 :: wts) g) as (i & x & Hx & Hhit & Hmiss & Hsel);
    [discriminate | exact Hlen | apply ltb_leb, Hr |].
  exists i, x. repeat split; [exact Hx | exact Hhit | exact Hmiss |].
  unfold weightedRandomSelection. cbn [elements weights random].
  rewrite (degenerate_weights_keep (w0 :: wts) w0);
    [| apply list_elem_of_here | apply nonneg_not_NaN, (Forall_inv Hnn)].
  cbn [elements random]. rewrite Hsel. reflexivity.
Qed.

(** C4: a weight vector with at least one NaN and at least one number is
    left as it is, its total and the scaled draw are NaN, no comparison
    succeeds and the call returns [null]. *)
Theorem C4_partial_NaN_returns_null elts wts g (w : number) :
  NaN ∈ wts -> w ∈ wts -> isNaN w = false ->
  weightedRandomSelection (mkMemory elts wts g)
  = (None, mkMemory elts wts (advance g)).
Proof.
  intros Hnan Hw Hnum. unfold weightedRandomSelection. cbn [elements weights random].
  rewrite (degenerate_weights_keep wts w Hw Hnum).
  unfold select_from, advance. cbn [Math_random fst snd elements weights random].
  rewrite (reduce_sum_has_NaN wts Hnan), mul_NaN_r, walk_NaN. reflexivity.
Qed.

(** C5 (as amended): a call leaves the elements array as it is and takes
    exactly one draw from the generator; it leaves the weights array as it is
    unless every weight is NaN, in which case it overwrites every slot of the
    caller's array with [1 / length]. *)
Theorem C5_frame_of_a_call (m : Memory A) :
  elements (snd (weightedRandomSelection m)) = elements m /\
  random (snd (weightedRandomSelection m)) = advance (random m) /\
  position (advance (random m)) = S (position (random m)) /\
  tape (advance (random m)) = tape (random m) /\
  weights (snd (weightedRandomSelection m))
  = if every isNaN (weights m)
    then uniform (length (weights m))
    else weights m.
Proof.
  repeat split.
  unfold weightedRandomSelection, select_from, degenerate_weights, uniform.
  cbn [Math_random snd weights elements random].
  destruct (every isNaN (weights m)); [apply fill_replicate | reflexivity].
Qed.

End SamplerClaims.

(** ** What a call returns is in the array *)

Lemma walk_elem {A : Type} (elts : list A) (wts : list number) (r : number)
    (todo i : nat) (cum : number) (x : A) :
  walk elts wts r todo i cum = Some x -> x ∈ elts.
Proof.
  revert i cum. induction todo as [|todo IH]; intros i cum; simpl.
  - discriminate.
  - destruct (leb r (add cum (number_at wts i))).
    + apply list_elem_of_lookup_2.
    + apply IH.
Qed.

Lemma weightedRandomSelection_elem {A : Type} (m : Memory A) (x : A) :
  fst (weightedRandomSelection m) = Some x -> x ∈ elements m.
Proof. unfold weightedRandomSelection, select_from. simpl. apply walk_elem. Qed.

Lemma weightedRandomSelection_elements {A : Type} (m : Memory A) :
  elements (snd (weightedRandomSelection m)) = elements m.
Proof. reflexivity. Qed.

(** ** The controller *)

Section ControllerFacts.
Context `{Collaborators}.
Implicit Types (c : Controller) (objs : ref -> GameInstance Snake Food).

Lemma reset_is_reset (g : GameInstance Snake Food) : is_reset (reset g).
Proof. split; reflexivity. Qed.

Lemma selection_loop_spec (todo : nat) (acc : list ref) objs (m : Memory ref)
    (new : list ref) objs' (m' : Memory ref) :
  selection_loop todo acc objs m = (Some new, objs', m') ->
  length new = (length acc + todo)%nat /\
  (forall r, r ∈ new -> r ∈ acc \/ r ∈ elements m) /\
  ((forall r, r ∈ acc -> is_reset (objs r)) ->
   forall r, r ∈ new -> is_reset (objs' r)).
Proof.
  revert acc objs m. induction todo as [|todo IH]; intros acc objs m;
    cbn [selection_loop].
  - intros [= <- <- <-]. split; [lia|]. split; [intros r Hr; left; exact Hr|].
    intros Hinv. exact Hinv.
  - destruct (weightedRandomSelection m) as [pick m1] eqn:Ecall.
    destruct pick as [r0|]; [|discriminate].
    intros Eloop. destruct (IH _ _ _ Eloop) as (Hlen & Hmem & Hreset).
    assert (Hr0 : r0 ∈ elements m)
      by (apply weightedRandomSelection_elem; rewrite Ecall; reflexivity).
    assert (Hm1 : elements m1 = elements m)
      by (rewrite <- (weightedRandomSelection_elements m), Ecall; reflexivity).
    split; [|split].
    + rewrite Hlen, length_app. simpl. lia.
    + intros r Hr. destruct (Hmem r Hr) as [Hacc | Hel].
      * apply elem_of_app in Hacc as [Hacc | Hone]; [left; exact Hacc|].
        apply list_elem_of_singleton in Hone as ->. right; exact Hr0.
      * right. rewrite <- Hm1. exact Hel.
    + intros Hinv. apply Hreset. intros r Hr.
      destruct (decide (r0 = r)) as [->|Hne].
      * rewrite fn_lookup_alter. apply reset_is_reset.
      * rewrite fn_lookup_alter_ne by exact Hne.
        apply elem_of_app in Hr as [Hacc | Hone]; [apply Hinv, Hacc|].
        apply list_elem_of_singleton in Hone. congruence.
Qed.

Lemma select_population_returned (wts : list number) c c' :
  select_population wts c = (Returned tt, c') ->
  nInstances c' = nInstances c /\
  length (gameInstances c') = nInstances c /\
  (forall r, r ∈ gameInstances c' -> r ∈ gameInstances c) /\
  (forall r, r ∈ gameInstances c' -> is_reset (objects c' r)).
Proof.
  unfold select_population.
  destruct (selection_loop _ _ _ _) as [[new objs'] m'] eqn:Eloop.
  destruct new as [new|]; [|discriminate].
  intros [= <-]. simpl.
  destruct (selection_loop_spec _ _ _ _ _ _ _ Eloop) as (Hlen & Hmem & Hreset).
  split; [reflexivity|]. split; [exact Hlen|]. split.
  - intros r Hr. destruct (Hmem r Hr) as [Hnil | Hel]; [inversion Hnil | exact Hel].
  - apply Hreset. intros r Hr. inversion Hr.
Qed.

Lemma select_population_thrown (wts : list number) c c' :
  select_population wts c = (Thrown_TypeError, c') ->
  nInstances c' = nInstances c /\ gameInstances c' = gameInstances c.
Proof.
  unfold select_population.
  destruct (selection_loop _ _ _ _) as [[new objs'] m'].
  destruct new as [new|]; [discriminate|].
  intros [= <-]. split; reflexivity.
Qed.

(** Each reference in the array triggers one [mutate] on the object it
    denotes. *)
Lemma mutate_each_count (refs : list ref) objs (r : ref) :
  mutate_each refs objs r
  = Nat.iter (count_occ Nat.eq_dec refs r) mutate (objs r).
Proof.
  unfold mutate_each. revert objs.
  induction refs as [|a refs IH]; intros objs; simpl.
  - reflexivity.
  - rewrite IH. destruct (Nat.eq_dec a r) as [->|Hne].
    + rewrite fn_lookup_alter. symmetry. apply Nat.iter_succ_r.
    + rewrite fn_lookup_alter_ne by exact Hne. reflexivity.
Qed.

Lemma createGameInstances_loop_spec (todo : nat) (snake0 : Snake)
    (food0 : Food) c :
  let c' := createGameInstances_loop todo snake0 food0 c in
  nInstances c' = nInstances c /\
  gameInstances c' = gameInstances c ++ seq (fresh c) todo /\
  fresh c' = (fresh c + todo)%nat /\
  generator c' = generator c /\
  forall r, objects c' r
            = if decide (fresh c <= r < fresh c + todo)%nat
              then GameInstance_constructor
              else objects c r.
Proof.
  revert c. induction todo as [|todo IH]; intros c; simpl.
  - repeat split; [now rewrite app_nil_r | lia |].
    intros r. destruct (decide _); [lia | reflexivity].
  - destruct (IH (push (fresh c) (snd (createGameInstance (Snake_copy snake0)
                                          (Food_copy food0) c))))
      as (Hn & Hpop & Hfresh & Hgen & Hobj).
    simpl in *. repeat split.
    + exact Hn.
    + rewrite Hpop, <- app_assoc. reflexivity.
    + rewrite Hfresh. lia.
    + exact Hgen.
    + intros r. rewrite Hobj. repeat case_decide; try lia.
      * reflexivity.
      * assert (r = fresh c) as -> by lia. apply fn_lookup_insert.
      * apply fn_lookup_insert_ne. lia.
Qed.

End ControllerFacts.

(** ** The uniform fallback *)

Lemma length_uniform (n : nat) : length (uniform n) = n.
Proof. apply length_replicate. Qed.

Lemma degenerate_weights_all_NaN (wts : list number) :
  Forall (fun w => isNaN w = true) wts ->
  degenerate_weights wts = uniform (length wts).
Proof.
  intros Hall. unfold degenerate_weights, uniform.
  apply every_Forall in Hall. rewrite Hall. apply fill_replicate.
Qed.

Lemma degenerate_weights_uniform (n : nat) :
  n <> 0%nat -> degenerate_weights (uniform n) = uniform n.
Proof.
  intros Hn. destruct n as [|n]; [congruence|].
  apply (degenerate_weights_keep _ (div one (of_nat (S n)))).
  - unfold uniform. simpl. apply list_elem_of_here.
  - apply uniform_weight_not_NaN.
Qed.

Lemma weightedRandomSelection_all_NaN {A : Type} (elts : list A)
    (wts : list number) (g : Random) :
  Forall (fun w => isNaN w = true) wts ->
  weightedRandomSelection (mkMemory elts wts g)
  = select_from (mkMemory elts (uniform (length wts)) g).
Proof.
  intros Hall. unfold weightedRandomSelection. cbn [elements weights random].
  rewrite (degenerate_weights_all_NaN wts Hall). reflexivity.
Qed.

Lemma weightedRandomSelection_uniform {A : Type} (elts : list A) (n : nat)
    (g : Random) :
  n <> 0%nat ->
  weightedRandomSelection (mkMemory elts (uniform n) g)
  = select_from (mkMemory elts (uniform n) g).
Proof.
  intros Hn. unfold weightedRandomSelection. cbn [elements weights random].
  rewrite (degenerate_weights_uniform n Hn). reflexivity.
Qed.

(** A zero divided by a zero is NaN: the normalized weights of a population
    whose non-negative fitnesses sum to zero. *)
Lemma normalize_zero_total (fitnesses : list number) :
  Forall (fun f => valid f = true /\ nonneg f = true) fitnesses ->
  eqb (reduce_sum fitnesses) zero = true ->
  Forall (fun w => isNaN w = true) (normalize fitnesses).
Proof.
  intros Hall Hsum.
  destruct (fold_add_zero fitnesses false) as [[s Htot] Hzeros].
  - eapply Forall_impl; [|exact Hall]. intros f [Hv Hn].
    split; [exact Hn | apply valid_exponent_ok, Hv].
  - exact Hsum.
  - unfold normalize, reduce_sum, zero. rewrite Htot.
    clear Hall Hsum Htot. induction Hzeros as [|f l [sf ->] _ IH]; simpl.
    + constructor.
    + constructor; [reflexivity | exact IH].
Qed.

Section UniformSelection.
Context `{Collaborators}.
Implicit Types (c : Controller) (objs : ref -> GameInstance Snake Food).

Lemma select_population_all_NaN (wts : list number) c :
  wts <> [] ->
  Forall (fun w => isNaN w = true) wts ->
  select_population wts c = select_population (uniform (length wts)) c.
Proof.
  intros Hne Hall. unfold select_population.
  destruct (nInstances c) as [|todo]; [reflexivity|].
  cbn [selection_loop].
  rewrite (weightedRandomSelection_all_NaN _ wts _ Hall).
  rewrite weightedRandomSelection_uniform
    by (destruct wts; [congruence | discriminate]).
  reflexivity.
Qed.

(** One [reset] for every occurrence of a reference among the picks. *)
Lemma reset_each_count (picks : list ref) objs (r : ref) :
  fold_left (fun o r0 => alter reset r0 o) picks objs r
  = Nat.iter (count_occ Nat.eq_dec picks r) reset (objs r).
Proof.
  revert objs. induction picks as [|a picks IH]; intros objs; simpl.
  - reflexivity.
  - rewrite IH. destruct (Nat.eq_dec a r) as [->|Hne].
    + rewrite fn_lookup_alter. symmetry. apply Nat.iter_succ_r.
    + rewrite fn_lookup_alter_ne by exact Hne. reflexivity.
Qed.

(** With uniform weights the loop of [selection()] never meets [null]: its
    [k]-th turn pushes the member on which the [k]-th draw falls, and resets
    it. *)
Lemma selection_loop_uniform_picks (todo : nat) (acc pop : list ref) objs
    (g : Random) :
  pop <> [] -> Z.of_nat (length pop) < 2 ^ 32 ->
  (forall k, unit_draw (tape g k)) ->
  exists picks : list ref,
    selection_loop todo acc objs (mkMemory pop (uniform (length pop)) g)
    = (Some (acc ++ picks),
       fold_left (fun o r0 => alter reset r0 o) picks objs,
       mkMemory pop (uniform (length pop)) (Nat.iter todo advance g)) /\
    length picks = todo /\
    forall k, (k < todo)%nat ->
      exists (i : nat) (r : ref),
        picks !! k = Some r /\ pop !! i = Some r /\
        first_hit (uniform (length pop))
          (mul (tape g (position g + k)) (reduce_sum (uniform (length pop))))
          i.
Proof.
  intros Hne Hlen. revert acc objs g.
  assert (Hn : length pop <> 0%nat) by (destruct pop; [congruence | discriminate]).
  induction todo as [|todo IH]; intros acc objs g Hdraws; cbn [selection_loop].
  - exists []. rewrite app_nil_r. split; [reflexivity|]. split; [reflexivity|].
    intros k Hk. lia.
  - rewrite weightedRandomSelection_uniform by exact Hn.
    destruct (select_from_first_hit pop (uniform (length pop)) g)
      as (i & r & Hr & Hhit & Hmiss & ->).
    + intros E. apply Hn. rewrite <- (length_uniform (length pop)), E. reflexivity.
    + symmetry. apply length_uniform.
    + apply uniform_draw_in_range; [exact Hn | exact Hlen | apply Hdraws].
    + destruct (IH (acc ++ [r]) (alter reset r objs) (advance g) Hdraws)
        as (picks & Eloop & Hpicks & Hslots).
      exists (r :: picks). rewrite Eloop, <- app_assoc. cbn [app fold_left].
      rewrite Nat.iter_succ_r.
      split; [reflexivity|]. split; [cbn [length]; lia|].
      intros [|k] Hk.
      * exists i, r. rewrite Nat.add_0_r.
        split; [reflexivity|]. split; [exact Hr|]. split; [exact Hhit | exact Hmiss].
      * destruct (Hslots k ltac:(lia)) as (i' & r' & Hk' & Hr' & Hhit').
        exists i', r'. split; [exact Hk'|]. split; [exact Hr'|].
        replace (position g + S k)%nat with (position (advance g) + k)%nat
          by (cbn; lia).
        exact Hhit'.
Qed.

(** [selection()] run on the uniform weights returns, and its result is a
    uniform selection. *)
Lemma select_population_uniform c :
  gameInstances c <> [] ->
  Z.of_nat (length (gameInstances c)) < 2 ^ 32 ->
  (forall k, unit_draw (tape (generator c) k)) ->
  exists c',
    select_population (uniform (length (gameInstances c))) c = (Returned tt, c')
    /\ uniform_selection c c'.
Proof.
  intros Hne Hsmall Hdraws. unfold select_population.
  destruct (selection_loop_uniform_picks (nInstances c) [] (gameInstances c)
              (objects c) (generator c) Hne Hsmall Hdraws)
    as (picks & -> & Hlen & Hslots).
  eexists. split; [reflexivity|].
  unfold uniform_selection. cbn [nInstances fresh gameInstances objects app].
  split; [reflexivity|]. split; [reflexivity|]. split; [exact Hlen|].
  split; [exact Hslots|].
  intros r. apply reset_each_count.
Qed.

(** The cumulative weights of the uniform vector are the repeated sums of
    [1/n]: every member has the same share. *)
Lemma cumulative_uniform (n i : nat) :
  (i < n)%nat ->
  cumulative (uniform n) i = reduce_sum (replicate (S i) (div one (of_nat n))).
Proof.
  intros Hi. unfold cumulative, uniform.
  rewrite take_replicate. rewrite Nat.min_l by lia. reflexivity.
Qed.

End UniformSelection.

(** ** The claims on the controller *)

Section ControllerClaims.
Context `{Collaborators}.
Implicit Types (c : Controller) (objs : ref -> GameInstance Snake Food).

(** C3: when every weight is NaN (the arrays being non-empty and of equal
    length) the call overwrites the weights with the uniform vector
    [1/len, ..., 1/len], whose cumulative weights are the repeated sums of
    [1/len], and is the normal procedure run on that vector: for every draw
    of [Math.random()] it returns the element at the least index whose
    cumulative uniform weight reaches the scaled draw.  In [selection()],
    non-negative fitnesses whose sum is zero are all zeros, every normalized
    weight is [0/0 = NaN], and [selection()] returns a uniform selection:
    slot [k] of the new population holds the member of the old one on which
    the [k]-th draw falls under the weights [1/n], and each instance has been
    reset once per slot it fills. *)
Theorem C3_all_NaN_falls_back_to_uniform :
  (forall (A : Type) (elts : list A) (wts : list number) (g : Random),
      elts <> [] -> length elts = length wts ->
      Z.of_nat (length wts) < 2 ^ 32 ->
      Forall (fun w => isNaN w = true) wts ->
      unit_draw (tape g (position g)) ->
      weightedRandomSelection (mkMemory elts wts g)
      = select_from (mkMemory elts (uniform (length wts)) g) /\
      weights (snd (weightedRandomSelection (mkMemory elts wts g)))
      = uniform (length wts) /\
      (forall j, (j < length wts)%nat ->
         cumulative (uniform (length wts)) j
         = reduce_sum (replicate (S j) (div one (of_nat (length wts))))) /\
      exists (i : nat) (x : A),
        elts !! i = Some x /\
        first_hit (uniform (length wts))
          (mul (tape g (position g)) (reduce_sum (uniform (length wts)))) i /\
        weightedRandomSelection (mkMemory elts wts g)
        = (Some x, mkMemory elts (uniform (length wts)) (advance g))) /\
  (forall c,
      gameInstances c <> [] ->
      Z.of_nat (length (gameInstances c)) < 2 ^ 32 ->
      Forall (fun f => valid f = true /\ nonneg f = true) (fitnesses_of c) ->
      eqb (reduce_sum (fitnesses_of c)) zero = true ->
      (forall k, unit_draw (tape (generator c) k)) ->
      Forall (fun w => isNaN w = true) (normalize (fitnesses_of c)) /\
      selection c = select_population (uniform (length (gameInstances c))) c /\
      exists c', selection c = (Returned tt, c') /\ uniform_selection c c').
Proof.
  split.
  - intros A elts wts g Hne Hlen Hsmall Hall Hdraw.
    pose proof (weightedRandomSelection_all_NaN elts wts g Hall) as Hcall.
    assert (Hn : length wts <> 0%nat)
      by (rewrite <- Hlen; destruct elts; [congruence | discriminate]).
    split; [exact Hcall|]. rewrite Hcall.
    destruct (select_from_first_hit elts (uniform (length wts)) g)
      as (i & x & Hx & Hhit & Hmiss & ->).
    + intros E. apply Hn. rewrite <- (length_uniform (length wts)), E. reflexivity.
    + rewrite length_uniform. exact Hlen.
    + apply uniform_draw_in_range; assumption.
    + split; [reflexivity|].
      split; [intros j Hj; apply cumulative_uniform, Hj|].
      exists i, x. split; [exact Hx|].
      split; [split; [exact Hhit | exact Hmiss] | reflexivity].
  - intros c Hne Hsmall Hfit Hsum Hdraws.
    pose proof (normalize_zero_total _ Hfit Hsum) as Hnan.
    assert (Hlen : length (normalize (fitnesses_of c)) = length (gameInstances c))
      by (unfold normalize, fitnesses_of; rewrite !length_map; reflexivity).
    assert (Hsel : selection c
                   = select_population (uniform (length (gameInstances c))) c).
    { unfold selection. rewrite <- Hlen.
      apply select_population_all_NaN; [|exact Hnan].
      intros E. rewrite E in Hlen. destruct (gameInstances c); [congruence | discriminate]. }
    split; [exact Hnan|]. split; [exact Hsel|].
    rewrite Hsel. apply select_population_uniform; assumption.
Qed.

(** C6: a population of [nInstances] members still has [nInstances] members
    after [nextGeneration()], whatever the fitnesses are and whether the call
    returns or throws; and whenever [selection()] returns it has installed
    exactly [nInstances] members, each taken from the previous population. *)
Theorem C6_population_size_invariant c :
  length (gameInstances c) = nInstances c ->
  nInstances (snd (nextGeneration c)) = nInstances c /\
  length (gameInstances (snd (nextGeneration c))) = nInstances c /\
  forall c', selection c = (Returned tt, c') ->
    length (gameInstances c') = nInstances c /\
    forall r, r ∈ gameInstances c' -> r ∈ gameInstances c.
Proof.
  intros Hsize.
  assert (Hret : forall c', selection c = (Returned tt, c') ->
            nInstances c' = nInstances c /\
            length (gameInstances c') = nInstances c /\
            forall r, r ∈ gameInstances c' -> r ∈ gameInstances c).
  { intros c' Hsel.
    destruct (select_population_returned _ _ _ Hsel) as (Hn & Hlen & Hmem & _).
    auto. }
  unfold nextGeneration.
  destruct (selection c) as [[[]|] c1] eqn:Hsel.
  - destruct (Hret c1 eq_refl) as (Hn & Hlen & _). simpl.
    split; [exact Hn|]. split; [exact Hlen|].
    intros c' [= <-]. apply (Hret c1 eq_refl).
  - destruct (select_population_thrown _ _ _ Hsel) as [Hn Hpop]. simpl.
    split; [exact Hn|]. split; [rewrite Hpop; exact Hsize|].
    intros c' [=].
Qed.

(** C7 (as amended): [mutation()] leaves the population array as it is and
    invokes [mutate] once for every slot; the object a reference denotes is
    therefore mutated as many times as the reference occurs in the
    population, which is exactly once when no instance fills two slots. *)
Theorem C7_mutation_once_per_slot c :
  gameInstances (mutation c) = gameInstances c /\
  (forall r, objects (mutation c) r
             = Nat.iter (count_occ Nat.eq_dec (gameInstances c) r) mutate
                 (objects c r)) /\
  (NoDup (gameInstances c) ->
   forall r, r ∈ gameInstances c ->
             objects (mutation c) r = mutate (objects c r)).
Proof.
  split; [reflexivity|]. split.
  - intros r. apply mutate_each_count.
  - intros Hnd r Hr. cbn [mutation objects]. rewrite mutate_each_count.
    apply NoDup_ListNoDup in Hnd.
    rewrite (proj1 (List.NoDup_count_occ' Nat.eq_dec (gameInstances c)) Hnd r);
      [reflexivity | apply list_elem_of_In, Hr].
Qed.

(** C8 (the code breaks the claim): [createGameInstances] on a new manager
    yields [n] fresh, pairwise distinct instances, each non-terminal with
    score zero, but every one of them holds [new Snake()] and [new Food()]:
    the copies of the prototypes are dropped by the constructor, so nothing
    in an instance derives from the prototypes. *)
Theorem C8_instances_ignore_the_prototypes (snake0 : Snake) (food0 : Food)
    (n : nat) objs (next : ref) (g : Random) :
  let c := createGameInstances snake0 food0 (constructor n objs next g) in
  length (gameInstances c) = n /\
  NoDup (gameInstances c) /\
  Forall (fun r => objects c r
                   = mkGameInstance Snake_new Food_new zero false)
    (gameInstances c).
Proof.
  intros c. subst c. unfold createGameInstances.
  change (nInstances (constructor n objs next g)) with n.
  destruct (createGameInstances_loop_spec n snake0 food0
              (constructor n objs next g)) as (_ & Hpop & _ & _ & Hobj).
  rewrite Hpop. cbn [constructor gameInstances fresh app].
  split; [apply length_seq|]. split; [apply NoDup_seq|].
  apply Forall_forall. intros r Hr. apply in_seq in Hr.
  rewrite Hobj. cbn [constructor fresh]. case_decide; [reflexivity | lia].
Qed.

(** C9: when [selection()] returns, every member of the new population is
    not over and has score zero, whatever it was before. *)
Theorem C9_selection_resets_the_population c c' :
  selection c = (Returned tt, c') ->
  forall r, r ∈ gameInstances c' ->
            isOver (objects c' r) = false /\ score (objects c' r) = zero.
Proof.
  intros Hsel r Hr.
  destruct (select_population_returned _ _ _ Hsel) as (_ & _ & _ & Hreset).
  apply Hreset, Hr.
Qed.

Lemma iterated_createGameInstances (snake0 : Snake) (food0 : Food) (k : nat) c :
  nInstances (Nat.iter k (createGameInstances snake0 food0) c) = nInstances c /\
  length (gameInstances (Nat.iter k (createGameInstances snake0 food0) c))
  = (length (gameInstances c) + k * nInstances c)%nat.
Proof.
  induction k as [|k [IHn IHlen]]; simpl.
  - split; [reflexivity | lia].
  - destruct (createGameInstances_loop_spec
                (nInstances (Nat.iter k (createGameInstances snake0 food0) c))
                snake0 food0 (Nat.iter k (createGameInstances snake0 food0) c))
      as (Hn & Hpop & _).
    unfold createGameInstances at 1 3. rewrite Hn, Hpop, length_app, length_seq.
    split; [exact IHn | lia].
Qed.

(** C10: [createGameInstances] appends [nInstances] new references to the
    population it finds, so [k] calls on a new manager leave [k * nInstances]
    members; and on the empty population of a new manager
    [allInstancesOver()] is true. *)
Theorem C10_createGameInstances_appends (snake0 : Snake) (food0 : Food)
    (n k : nat) objs (next : ref) (g : Random) c :
  gameInstances (createGameInstances snake0 food0 c)
  = gameInstances c ++ seq (fresh c) (nInstances c) /\
  length (gameInstances
            (Nat.iter k (createGameInstances snake0 food0)
               (constructor n objs next g))) = (k * n)%nat /\
  allInstancesOver (constructor n objs next g) = true.
Proof.
  split; [|split].
  - apply (createGameInstances_loop_spec (nInstances c) snake0 food0 c).
  - destruct (iterated_createGameInstances snake0 food0 k
                (constructor n objs next g)) as [_ ->]. reflexivity.
  - reflexivity.
Qed.

End ControllerClaims.

(** ** The claims at concrete inputs *)

(** C1 at the weights [[0, 0, 0]]: the call returns ["a"], not [null]. *)
Lemma C1_zero_weights_witness :
  eqb (reduce_sum [zero; zero; zero]) zero = true /\
  fst (weightedRandomSelection (mkMemory abc [zero; zero; zero] draws_half))
  = Some "a"%string.
Proof.
  split; [reflexivity|].
  apply (C1_zero_total_returns_first_element "a"%string ["b"; "c"]%string
           [zero; zero; zero] draws_half);
    [reflexivity | repeat constructor | reflexivity | reflexivity].
Defined.

(** C2 at the weights [[1, 2, 3]] and the draw [0.5]: the scaled draw is 3
    and the cumulative weights are 1, 3, 6. *)
Lemma C2_one_two_three_witness :
  mul (tape draws_half (position draws_half)) (reduce_sum one_two_three)
  = of_nat 3 /\
  exists (i : nat) (x : string),
    abc !! i = Some x /\
    leb (mul (tape draws_half (position draws_half)) (reduce_sum one_two_three))
        (cumulative one_two_three i) = true /\
    (forall j, (j < i)%nat ->
       leb (mul (tape draws_half (position draws_half))
              (reduce_sum one_two_three))
           (cumulative one_two_three j) = false) /\
    fst (weightedRandomSelection (mkMemory abc one_two_three draws_half))
    = Some x.
Proof.
  split; [reflexivity|].
  apply (C2_returns_first_cumulative_hit abc one_two_three draws_half);
    [discriminate | reflexivity | repeat constructor | reflexivity
    | reflexivity | reflexivity].
Defined.

(** C3 at the weights [[NaN, NaN, NaN]] under the draw 0.75, which falls to
    the third element, and at a population whose two members scored zero
    under the draws 0.75 and 0.25, which fall to the second member and then
    to the first. *)
Lemma C3_all_NaN_witness :
  (exists (i : nat) (x : string),
     abc !! i = Some x /\
     first_hit (uniform 3) (mul three_quarters (reduce_sum (uniform 3))) i /\
     weightedRandomSelection (mkMemory abc [NaN; NaN; NaN] high_then_low)
     = (Some x, mkMemory abc (uniform 3) (advance high_then_low))) /\
  fst (weightedRandomSelection (mkMemory abc [NaN; NaN; NaN] high_then_low))
  = Some "c"%string /\
  (exists c', selection two_idle_mixed = (Returned tt, c') /\
     uniform_selection two_idle_mixed c') /\
  gameInstances (snd (selection two_idle_mixed)) = [1; 0]%nat.
Proof.
  destruct (C3_all_NaN_falls_back_to_uniform (H := counting)) as [Hcall Hsel].
  split; [|split; [reflexivity|split; [|reflexivity]]].
  - destruct (Hcall string abc [NaN; NaN; NaN] high_then_low)
      as (_ & _ & _ & Hx);
      [discriminate | reflexivity | reflexivity | repeat constructor
      | repeat split | exact Hx].
  - destruct (Hsel two_idle_mixed) as (_ & _ & Hret);
      [discriminate | reflexivity | repeat constructor | reflexivity
      | intros [|k]; repeat split | exact Hret].
Defined.

(** C4 at the weights [[NaN, 1, NaN]]. *)
Lemma C4_partial_NaN_witness :
  weightedRandomSelection (mkMemory abc [NaN; one; NaN] draws_half)
  = (None, mkMemory abc [NaN; one; NaN] (advance draws_half)).
Proof.
  apply (C4_partial_NaN_returns_null abc [NaN; one; NaN] draws_half one);
    [apply list_elem_of_here | apply list_elem_of_further, list_elem_of_here
    | reflexivity].
Defined.

(** C5 as stated fails: on the weights [[NaN, NaN]] the call leaves
    [[0.5, 0.5]] in the caller's array. *)
Lemma C5_weights_overwritten_counterexample :
  weights (snd (weightedRandomSelection
                  (mkMemory ["a"; "b"]%string [NaN; NaN] draws_half)))
  = [half; half] /\
  weights (snd (weightedRandomSelection
                  (mkMemory ["a"; "b"]%string [NaN; NaN] draws_half)))
  <> weights (mkMemory ["a"; "b"]%string [NaN; NaN] draws_half).
Proof. split; [reflexivity | discriminate]. Qed.

(** C6 at a population of two scored instances. *)
Lemma C6_two_scored_witness :
  fst (nextGeneration two_scored) = Returned tt /\
  nInstances (snd (nextGeneration two_scored)) = 2%nat /\
  length (gameInstances (snd (nextGeneration two_scored))) = 2%nat /\
  forall c', selection two_scored = (Returned tt, c') ->
    length (gameInstances c') = 2%nat /\
    forall r, r ∈ gameInstances c' -> r ∈ gameInstances two_scored.
Proof.
  split; [reflexivity|].
  apply (C6_population_size_invariant (H := counting) two_scored).
  reflexivity.
Defined.

(** C7 as stated fails: with fitnesses [[1, 0]] both picks of [selection()]
    are the first instance, the new population holds it twice, and
    [mutation()] runs its [mutate] twice (the stub counts the calls in the
    snake). *)
Lemma C7_mutated_twice_counterexample :
  fst (nextGeneration two_scored) = Returned tt /\
  gameInstances (snd (nextGeneration two_scored)) = [0; 0]%nat /\
  snake (objects (snd (selection two_scored)) 0%nat) = 0%nat /\
  snake (objects (snd (nextGeneration two_scored)) 0%nat) = 2%nat /\
  objects (snd (nextGeneration two_scored)) 0%nat
  <> mutate (objects (snd (selection two_scored)) 0%nat).
Proof. repeat split; try reflexivity. discriminate. Qed.

(** C8 at the prototypes 7 and 9 with the counting collaborator, whose
    [copy] is the identity: the two instances hold the snake 0 of
    [new Snake()], not the copy 7 of the prototype. *)
Lemma C8_prototypes_dropped_example :
  Snake_copy 7%nat = 7%nat /\
  snakes (createGameInstances 7%nat 9%nat
            (constructor 2 two_objects 2%nat draws_half)) = [0; 0]%nat.
Proof. split; reflexivity. Qed.

(** C9 at a population of two scored, finished instances. *)
Lemma C9_two_scored_witness :
  fst (selection two_scored) = Returned tt /\
  gameInstances (snd (selection two_scored)) = [0; 0]%nat /\
  isOver (objects two_scored 0%nat) = true /\
  score (objects two_scored 0%nat) = one /\
  isOver (objects (snd (selection two_scored)) 0%nat) = false /\
  score (objects (snd (selection two_scored)) 0%nat) = zero.
Proof.
  repeat (split; [reflexivity|]).
  apply (C9_selection_resets_the_population (H := counting) two_scored
           (snd (selection two_scored)));
    [reflexivity | apply list_elem_of_here].
Defined.

(** * Further properties of the three files *)

(** ** utils.js: weightedRandomSelection *)

(** Adding a zero does not change how a number compares with the sum. *)
Lemma leb_add_zero (r cum w : number) :
  eqb w zero = true -> leb r (add cum w) = leb r cum.
Proof.
  intros Hw. destruct w as [s|[]| |[] mw ew]; try (cbv in Hw; discriminate Hw).
  destruct cum as [s0| | |s0 m0 e0]; try reflexivity.
  destruct s0, s, r as [sr|sr| |sr mr er]; reflexivity.
Qed.

Section SamplerExtras.
Context {A : Type}.
Implicit Types (elts : list A) (wts : list number) (g : Random).

Lemma walk_index_in_weights elts wts (r : number) (todo i : nat)
    (cum : number) (x : A) :
  walk elts wts r todo i cum = Some x ->
  exists k, (k < length wts)%nat /\ elts !! k = Some x.
Proof.
  revert i cum. induction todo as [|todo IH]; intros i cum; cbn [walk].
  - discriminate.
  - destruct (leb r (add cum (number_at wts i))) eqn:Ehit.
    + intros Hx. exists i. split; [|exact Hx].
      unfold number_at in Ehit. destruct (wts !! i) as [w|] eqn:Ew.
      * eapply lookup_lt_Some, Ew.
      * rewrite add_NaN_r, leb_NaN_r in Ehit. discriminate.
    + apply IH.
Qed.

Lemma length_degenerate_weights wts :
  length (degenerate_weights wts) = length wts.
Proof.
  unfold degenerate_weights, fill. destruct (every isNaN wts);
    [apply length_map | reflexivity].
Qed.

(** X1: What a call returns is [null] or the element at an index that both
    arrays have: when [weights] is shorter than [elements], the elements
    past its end are never returned. *)
Theorem X1_result_lies_within_both_arrays (m : Memory A) (x : A) :
  fst (weightedRandomSelection m) = Some x ->
  exists k, (k < length (weights m))%nat /\ (k < length (elements m))%nat /\
            elements m !! k = Some x.
Proof.
  unfold weightedRandomSelection, select_from.
  cbn [Math_random fst snd elements weights random].
  intros Hx. apply walk_index_in_weights in Hx as (k & Hk & Hx).
  rewrite length_degenerate_weights in Hk.
  exists k. split; [exact Hk|]. split; [eapply lookup_lt_Some, Hx | exact Hx].
Qed.

Lemma walk_skips_zero elts wts (r : number) (j : nat) (w : number)
    (todo i : nat) (cum : number) (x : A) :
  wts !! j = Some w -> eqb w zero = true ->
  (i = j -> leb r cum = false) ->
  walk elts wts r todo i cum = Some x ->
  exists k, k <> j /\ elts !! k = Some x.
Proof.
  intros Hj Hw. revert i cum.
  induction todo as [|todo IH]; intros i cum Hinv; cbn [walk].
  - discriminate.
  - destruct (leb r (add cum (number_at wts i))) eqn:Ehit.
    + intros Hx. exists i. split; [|exact Hx].
      intros E. subst i. unfold number_at in Ehit.
      rewrite Hj in Ehit. rewrite leb_add_zero in Ehit by exact Hw.
      rewrite (Hinv eq_refl) in Ehit. discriminate.
    + apply IH. intros _. exact Ehit.
Qed.

(** X2: An element whose weight is a zero and that is not the first of the array
    is never returned (the first one can be, when the draw scales to zero). *)
Theorem X2_zero_weight_after_the_first_is_never_returned elts wts g
    (j : nat) (w : number) (x : A) :
  NoDup elts -> (0 < j)%nat ->
  elts !! j = Some x -> wts !! j = Some w -> eqb w zero = true ->
  fst (weightedRandomSelection (mkMemory elts wts g)) <> Some x.
Proof.
  intros Hnd Hj Hx Hw Hz Hres.
  unfold weightedRandomSelection in Hres. cbn [elements weights random] in Hres.
  rewrite (degenerate_weights_keep wts w) in Hres;
    [| eapply list_elem_of_lookup_2, Hw
     | destruct w; [reflexivity | reflexivity | discriminate Hz | reflexivity]].
  unfold select_from in Hres. cbn [Math_random fst snd elements weights random] in Hres.
  apply (walk_skips_zero elts wts _ j w) in Hres as (k & Hk & Hxk);
    [| exact Hw | exact Hz | lia].
  apply Hk. eapply NoDup_lookup; eassumption.
Qed.

Lemma degenerate_weights_idempotent wts :
  degenerate_weights (degenerate_weights wts) = degenerate_weights wts.
Proof.
  destruct (every isNaN wts) eqn:E.
  - assert (Hd : degenerate_weights wts = uniform (length wts))
      by (unfold degenerate_weights, uniform; rewrite E; apply fill_replicate).
    rewrite Hd. destruct (length wts) as [|n].
    + reflexivity.
    + apply (degenerate_weights_uniform (S n)). discriminate.
  - assert (Hd : degenerate_weights wts = wts)
      by (unfold degenerate_weights; rewrite E; reflexivity).
    rewrite !Hd. reflexivity.
Qed.

(** X3: The uniform fallback rewrites the caller's weights at most once: after a
    first call, a second call on the same arrays leaves the weights as the
    first call left them, and the two calls take two draws. *)
Theorem X3_weights_settle_after_the_first_call (m : Memory A) :
  weights (snd (weightedRandomSelection (snd (weightedRandomSelection m))))
  = weights (snd (weightedRandomSelection m)) /\
  elements (snd (weightedRandomSelection (snd (weightedRandomSelection m))))
  = elements m /\
  position (random (snd (weightedRandomSelection
                           (snd (weightedRandomSelection m)))))
  = S (S (position (random m))).
Proof.
  unfold weightedRandomSelection, select_from.
  cbn [Math_random fst snd elements weights random position].
  split; [apply degenerate_weights_idempotent | split; reflexivity].
Qed.

(** X6: Any number [n] of successive calls on the same two arrays, as a loop
    of picks makes them, takes exactly [n] draws from [Math.random()], one
    per call and whatever each call returns; the elements are never written,
    and the weights are written by the first call at most: the later calls
    leave them as the first call left them. *)
Theorem X6_successive_calls_take_one_draw_each (m : Memory A) (n : nat) :
  elements (Nat.iter n after_call m) = elements m /\
  tape (random (Nat.iter n after_call m)) = tape (random m) /\
  position (random (Nat.iter n after_call m)) = (position (random m) + n)%nat /\
  weights (Nat.iter n after_call (after_call m)) = weights (after_call m).
Proof.
  induction n as [|n (IHe & IHt & IHp & IHw)]; cbn [Nat.iter].
  - split; [reflexivity|]. split; [reflexivity|]. split; [|reflexivity].
    symmetry. apply Nat.add_0_r.
  - split; [exact IHe|]. split; [exact IHt|]. split.
    + change (S (position (random (Nat.iter n after_call m)))
              = (position (random m) + S n)%nat).
      rewrite IHp. lia.
    + change (degenerate_weights (weights (Nat.iter n after_call (after_call m)))
              = weights (after_call m)).
      rewrite IHw. apply degenerate_weights_idempotent.
Qed.

(** X4: When [Math.random()] returns 0 and the total is finite, the call returns
    the first element as soon as its weight is non-negative, whatever the
    other weights are, also when that weight is zero. *)
Theorem X4_zero_draw_returns_the_first_element (x : A) (rest : list A)
    (w0 : number) (wts : list number) g (s : bool) :
  nonneg w0 = true ->
  isFinite (reduce_sum (w0 :: wts)) = true ->
  tape g (position g) = S754_zero s ->
  fst (weightedRandomSelection (mkMemory (x :: rest) (w0 :: wts) g)) = Some x.
Proof.
  intros Hw0 Hfin Hu.
  unfold weightedRandomSelection. cbn [elements weights random].
  rewrite (degenerate_weights_keep (w0 :: wts) w0);
    [| apply list_elem_of_here | apply nonneg_not_NaN, Hw0].
  unfold select_from. cbn [Math_random fst snd elements weights random length walk].
  rewrite Hu. unfold number_at. cbn [lookup list_lookup].
  set (total := reduce_sum (w0 :: wts)) in *.
  assert (Hr : exists s', mul (S754_zero s) total = S754_zero s').
  { destruct total as [st| | |st mt et]; try discriminate Hfin; simpl; eauto. }
  destruct Hr as [s' ->].
  assert (Hle : leb (S754_zero s') (add zero w0) = true).
  { destruct w0 as [s0|[]| |[] m0 e0]; try (cbv in Hw0; discriminate Hw0);
      try reflexivity. destruct s0; reflexivity. }
  rewrite Hle. reflexivity.
Qed.

End SamplerExtras.

(** ** gameInstancesManager.js: selection and nextGeneration *)

Lemma rounded_nonneg (z : number) : rounded false z -> nonneg z = true.
Proof. intros [| |m e He]; reflexivity. Qed.

Lemma binary_round_rounded (s : bool) (m : positive) (e : Z) :
  rounded s (binary_round prec emax s m e).
Proof.
  unfold binary_round. destruct (shl_align m e _) as [mz ez].
  apply binary_round_aux_rounded. lia.
Qed.

Lemma add_nonneg (x y : number) :
  nonneg x = true -> nonneg y = true -> nonneg (add x y) = true.
Proof.
  intros Hx Hy.
  destruct (nonneg_cases x Hx) as [[sx ->] | Hx'];
    destruct (nonneg_cases y Hy) as [[sy ->] | Hy'].
  - destruct sx, sy; reflexivity.
  - destruct (positive_cases y Hy') as [-> | (my & ey & ->)]; reflexivity.
  - destruct (positive_cases x Hx') as [-> | (mx & ex & ->)]; reflexivity.
  - destruct (positive_cases x Hx') as [-> | (mx & ex & ->)];
      destruct (positive_cases y Hy') as [-> | (my & ey & ->)];
      try reflexivity.
    apply rounded_nonneg. unfold add, SFadd.
    cbn [cond_Zopp Z.add binary_normalize]. apply binary_round_rounded.
Qed.

Lemma add_infinity_r (x : number) :
  nonneg x = true -> add x infinity = infinity.
Proof.
  intros Hx. destruct x as [s|[]| |[] m e]; try (cbv in Hx; discriminate Hx);
    reflexivity.
Qed.

Lemma add_infinity_l (y : number) :
  nonneg y = true -> add infinity y = infinity.
Proof.
  intros Hy. destruct y as [s|[]| |[] m e]; try (cbv in Hy; discriminate Hy);
    reflexivity.
Qed.

Lemma fold_add_infinity (l : list number) :
  Forall (fun w => nonneg w = true) l ->
  fold_left add l infinity = infinity.
Proof.
  induction 1 as [|w l Hw _ IH]; cbn [fold_left].
  - reflexivity.
  - rewrite add_infinity_l by exact Hw. exact IH.
Qed.

(** A sum of non-negative numbers one of which is [Infinity] is
    [Infinity]. *)
Lemma fold_add_reaches_infinity (l : list number) (acc : number) :
  Forall (fun w => nonneg w = true) l -> nonneg acc = true ->
  infinity ∈ l -> fold_left add l acc = infinity.
Proof.
  intros Hall. revert acc.
  induction Hall as [|w l Hw Hall IH]; intros acc Hacc Hin; cbn [fold_left].
  - inversion Hin.
  - apply elem_of_cons in Hin as [<- | Hin].
    + rewrite add_infinity_r by exact Hacc. apply fold_add_infinity, Hall.
    + apply IH; [apply add_nonneg; assumption | exact Hin].
Qed.

Lemma div_NaN_r (x : number) : div x NaN = NaN.
Proof. destruct x; reflexivity. Qed.

Lemma weightedRandomSelection_partial_NaN {A : Type} (elts : list A)
    (wts : list number) (g : Random) (w : number) :
  NaN ∈ wts -> w ∈ wts -> isNaN w = false ->
  weightedRandomSelection (mkMemory elts wts g)
  = (None, mkMemory elts wts (advance g)).
Proof.
  intros Hnan Hw Hnum. unfold weightedRandomSelection. cbn [elements weights random].
  rewrite (degenerate_weights_keep wts w Hw Hnum).
  unfold select_from, advance. cbn [Math_random fst snd elements weights random].
  rewrite (reduce_sum_has_NaN wts Hnan), mul_NaN_r, walk_NaN. reflexivity.
Qed.

Section ControllerExtras.
Context `{Collaborators}.
Implicit Types (c : Controller) (objs : ref -> GameInstance Snake Food).

Lemma selection_loop_frame (todo : nat) (acc : list ref) objs (m : Memory ref)
    (res : option (list ref)) objs' (m' : Memory ref) :
  selection_loop todo acc objs m = (res, objs', m') ->
  (forall r, r ∉ elements m -> objs' r = objs r) /\
  tape (random m') = tape (random m) /\
  (is_Some res -> position (random m') = (position (random m) + todo)%nat).
Proof.
  revert acc objs m. induction todo as [|todo IH]; intros acc objs m;
    cbn [selection_loop].
  - intros [= <- <- <-]. split; [reflexivity|]. split; [reflexivity|].
    intros _. lia.
  - destruct (weightedRandomSelection m) as [pick m1] eqn:Ecall.
    assert (Hm1 : elements m1 = elements m /\ random m1 = advance (random m))
      by (change m1 with (snd (pick, m1)); rewrite <- Ecall; split; reflexivity).
    destruct Hm1 as [Hel Hrand].
    destruct pick as [r0|].
    + intros Eloop. destruct (IH _ _ _ Eloop) as (Hobj & Htape & Hpos).
      assert (Hr0 : r0 ∈ elements m)
        by (apply weightedRandomSelection_elem; rewrite Ecall; reflexivity).
      split; [|split].
      * intros r Hr. rewrite Hobj by (rewrite Hel; exact Hr).
        apply fn_lookup_alter_ne. intros ->. exact (Hr Hr0).
      * rewrite Htape, Hrand. reflexivity.
      * intros Hres. rewrite (Hpos Hres), Hrand. simpl. lia.
    + intros [= <- <- <-]. split; [reflexivity|]. split.
      * rewrite Hrand. reflexivity.
      * intros [? [=]].
Qed.

Lemma mutate_each_frame (refs : list ref) objs (r : ref) :
  r ∉ refs -> mutate_each refs objs r = objs r.
Proof.
  intros Hr. rewrite mutate_each_count.
  rewrite (proj1 (List.count_occ_not_In Nat.eq_dec refs r)); [reflexivity|].
  intros Hin. apply Hr, list_elem_of_In, Hin.
Qed.

(** X5: [nextGeneration()] on a manager whose population is empty (before
    [createGameInstances]) and whose [nInstances] is not zero throws: the
    sampler returns [null] on the empty array and [null.reset()] is a
    TypeError; one draw has been taken and nothing else has changed. *)
Theorem X5_nextGeneration_on_empty_population_throws c :
  gameInstances c = [] -> nInstances c <> 0%nat ->
  fst (nextGeneration c) = Thrown_TypeError /\
  gameInstances (snd (nextGeneration c)) = [] /\
  objects (snd (nextGeneration c)) = objects c /\
  generator (snd (nextGeneration c)) = advance (generator c).
Proof.
  intros Hpop Hn. unfold nextGeneration, selection, select_population,
    fitnesses_of, normalize.
  rewrite Hpop. destruct (nInstances c) as [|todo]; [congruence|].
  cbn. repeat split.
Qed.

(** X7: [nextGeneration()] allocates nothing and rewrites only objects of the
    population it started from, whether it returns or throws. *)
Theorem X7_nextGeneration_touches_only_the_population c (r : ref) :
  r ∉ gameInstances c ->
  objects (snd (nextGeneration c)) r = objects c r /\
  fresh (snd (nextGeneration c)) = fresh c.
Proof.
  intros Hr. unfold nextGeneration.
  destruct (selection c) as [[[]|] c1] eqn:Hsel; cbn [snd].
  - destruct (select_population_returned _ _ _ Hsel) as (_ & _ & Hmem & _).
    revert Hsel. unfold selection, select_population.
    destruct (selection_loop _ _ _ _) as [[new objs'] m'] eqn:Eloop.
    destruct (selection_loop_frame _ _ _ _ _ _ _ Eloop) as (Hobj & _ & _).
    destruct new as [new|]; [|discriminate].
    intros [= <-]. cbn [mutation objects fresh gameInstances] in *.
    split; [|reflexivity].
    rewrite mutate_each_frame by (intros Hin; apply Hr, Hmem, Hin).
    apply Hobj. exact Hr.
  - revert Hsel. unfold selection, select_population.
    destruct (selection_loop _ _ _ _) as [[new objs'] m'] eqn:Eloop.
    destruct (selection_loop_frame _ _ _ _ _ _ _ Eloop) as (Hobj & _ & _).
    destruct new as [new|]; [discriminate|].
    intros [= <-]. cbn [objects fresh]. split; [|reflexivity].
    apply Hobj. exact Hr.
Qed.

(** X8: One NaN fitness makes the total NaN and every normalized weight NaN:
    [selection()] then returns a uniform selection, whatever the other
    fitnesses are: slot [k] of the new population holds the member of the old
    one on which the [k]-th draw falls under the weights [1/n], and each
    instance has been reset once per slot it fills. *)
Theorem X8_NaN_fitness_makes_selection_uniform c :
  NaN ∈ fitnesses_of c ->
  Z.of_nat (length (gameInstances c)) < 2 ^ 32 ->
  (forall k, unit_draw (tape (generator c) k)) ->
  Forall (fun w => isNaN w = true) (normalize (fitnesses_of c)) /\
  selection c = select_population (uniform (length (gameInstances c))) c /\
  exists c', selection c = (Returned tt, c') /\ uniform_selection c c'.
Proof.
  intros Hnan Hsmall Hdraws.
  assert (Hall : Forall (fun w => isNaN w = true) (normalize (fitnesses_of c))).
  { unfold normalize. rewrite (reduce_sum_has_NaN _ Hnan).
    apply Forall_forall. intros w Hw. apply in_map_iff in Hw as (f & <- & _).
    rewrite div_NaN_r. reflexivity. }
  assert (Hlen : length (normalize (fitnesses_of c)) = length (gameInstances c))
    by (unfold normalize, fitnesses_of; rewrite !length_map; reflexivity).
  assert (Hne : gameInstances c <> []).
  { intros E. unfold fitnesses_of in Hnan. rewrite E in Hnan. inversion Hnan. }
  assert (Hsel : selection c
                 = select_population (uniform (length (gameInstances c))) c).
  { unfold selection. rewrite <- Hlen.
    apply select_population_all_NaN; [|exact Hall].
    intros E. rewrite E in Hlen. destruct (gameInstances c); [congruence | discriminate]. }
  split; [exact Hall|]. split; [exact Hsel|].
  rewrite Hsel. apply select_population_uniform; assumption.
Qed.

(** X9: An infinite fitness next to a finite one makes [nextGeneration()] throw
    at the first pick: the total is [Infinity], the normalized weights are
    NaN for the infinite fitness and zero for the finite one, the sampler
    returns [null], and neither the population nor any instance has been
    changed. *)
Theorem X9_infinite_fitness_makes_nextGeneration_throw c (f : number) :
  Forall (fun w => nonneg w = true) (fitnesses_of c) ->
  infinity ∈ fitnesses_of c ->
  f ∈ fitnesses_of c -> isFinite f = true ->
  nInstances c <> 0%nat ->
  fst (nextGeneration c) = Thrown_TypeError /\
  gameInstances (snd (nextGeneration c)) = gameInstances c /\
  objects (snd (nextGeneration c)) = objects c.
Proof.
  intros Hnn Hinf Hf Hfin Hn.
  assert (Htot : reduce_sum (fitnesses_of c) = infinity)
    by (apply fold_add_reaches_infinity; [exact Hnn | reflexivity | exact Hinf]).
  assert (H1 : NaN ∈ normalize (fitnesses_of c)).
  { unfold normalize. rewrite Htot. apply list_elem_of_In, in_map_iff.
    exists infinity. split; [reflexivity | apply list_elem_of_In, Hinf]. }
  assert (H2 : div f infinity ∈ normalize (fitnesses_of c)).
  { unfold normalize. rewrite Htot. apply list_elem_of_In, in_map_iff.
    exists f. split; [reflexivity | apply list_elem_of_In, Hf]. }
  assert (H3 : isNaN (div f infinity) = false)
    by (destruct f; try discriminate Hfin; reflexivity).
  unfold nextGeneration, selection, select_population.
  destruct (nInstances c) as [|todo]; [congruence|].
  cbn [selection_loop].
  rewrite (weightedRandomSelection_partial_NaN _ _ _ _ H1 H2 H3).
  cbn. repeat split.
Qed.

End ControllerExtras.

(** ** Numbers: the order and the sign of a difference *)

Lemma SFcompare_antisym (x y : number) :
  SFcompare y x = option_map CompOpp (SFcompare x y).
Proof.
  destruct x as [sx|sx| |sx mx ex], y as [sy|sy| |sy my ey];
    try destruct sx; try destruct sy; try reflexivity;
    cbn [SFcompare option_map]; rewrite (Z.compare_antisym ex ey);
    destruct (ex ?= ey); cbn [CompOpp]; try reflexivity;
    rewrite (Pos.compare_cont_antisym mx my Eq); reflexivity.
Qed.

(** On numbers, [not (a < b)] is [b <= a]. *)
Lemma ltb_false_leb (a b : number) :
  isNaN a = false -> isNaN b = false ->
  (ltb a b = false <-> leb b a = true).
Proof.
  intros Ha Hb. unfold ltb, leb, SFltb, SFleb.
  rewrite (SFcompare_antisym a b).
  destruct a, b; try discriminate; cbn [isNaN] in *;
    destruct (SFcompare _ _) as [[]|] eqn:E; cbn; split; intros; try congruence;
    try discriminate E.
Qed.

(** The sign given to a rounding does not change its magnitude. *)
Lemma abs_binary_round (s s' : bool) (m : positive) (e : Z) :
  abs (binary_round prec emax s m e) = abs (binary_round prec emax s' m e).
Proof.
  unfold binary_round, binary_round_aux.
  destruct (shl_align m e _) as [mz ez].
  destruct (shr_fexp prec emax (Z.pos mz) ez loc_Exact) as [mrs1 e1].
  destruct (shr_fexp prec emax _ e1 loc_Exact) as [mrs2 e2].
  destruct (shr_m mrs2); try reflexivity.
  destruct (e2 <=? emax - prec); reflexivity.
Qed.

Lemma abs_binary_normalize_opp (z e : Z) :
  abs (binary_normalize prec emax (- z) e false)
  = abs (binary_normalize prec emax z e false).
Proof.
  destruct z as [|p|p]; cbn [Z.opp binary_normalize];
    [reflexivity | apply abs_binary_round | apply abs_binary_round].
Qed.

(** [|x - y| = |y - x|], also after rounding and at the infinities. *)
Lemma abs_sub_comm (x y : number) : abs (sub x y) = abs (sub y x).
Proof.
  destruct x as [sx|sx| |sx mx ex], y as [sy|sy| |sy my ey];
    try (destruct sx, sy; reflexivity); try reflexivity.
  unfold sub, SFsub. rewrite (Z.min_comm ey ex).
  rewrite <- abs_binary_normalize_opp. f_equal. f_equal. lia.
Qed.

Lemma sub_diag_finite (x : number) :
  isFinite x = true -> sub x x = zero.
Proof.
  destruct x as [s| | |s m e]; try discriminate; intros _.
  - destruct s; reflexivity.
  - unfold sub, SFsub. rewrite Z.sub_diag. reflexivity.
Qed.

Lemma div_rounded (mx my : positive) (ex ey : Z) :
  rounded false (div (S754_finite false mx ex) (S754_finite false my ey)).
Proof.
  unfold div, SFdiv. cbn [xorb].
  destruct (SFdiv_core_binary_bound (Z.pos mx) ex (Z.pos my) ey) as (Hq & _);
    [lia | lia |].
  destruct (SFdiv_core_binary prec emax (Z.pos mx) ex (Z.pos my) ey)
    as [[q e'] lz]. cbn [fst] in Hq.
  apply binary_round_aux_rounded. exact Hq.
Qed.

(** ** utils.js: manhattanDistance *)

(** X10: The distance does not depend on which of the two points is the head of
    the snake and which is the food. *)
Theorem X10_manhattanDistance_is_symmetric (tileSize : number)
    (a b : Point.t) :
  Utils.manhattanDistance tileSize (Utils.mkSnake a) b
  = Utils.manhattanDistance tileSize (Utils.mkSnake b) a.
Proof.
  unfold Utils.manhattanDistance. cbn [Utils.head].
  rewrite (abs_sub_comm (Point.x a) (Point.x b)).
  rewrite (abs_sub_comm (Point.y a) (Point.y b)). reflexivity.
Qed.

(** X11: When the head is on the food, at finite coordinates, the distance is
    zero for every tile size that is neither zero nor NaN. *)
Theorem X11_manhattanDistance_on_the_food_is_zero (tileSize : number)
    (p : Point.t) :
  isFinite (Point.x p) = true -> isFinite (Point.y p) = true ->
  isNaN tileSize = false -> eqb tileSize zero = false ->
  eqb (Utils.manhattanDistance tileSize (Utils.mkSnake p) p) zero = true.
Proof.
  intros Hx Hy Hnan Hz. unfold Utils.manhattanDistance. cbn [Utils.head].
  rewrite (sub_diag_finite _ Hx), (sub_diag_finite _ Hy).
  destruct tileSize as [s|s| |s m e]; try discriminate; try reflexivity.
Qed.

(** X12: With a positive tile size the distance is never negative: it is NaN or
    at least zero, whatever the coordinates are. *)
Theorem X12_manhattanDistance_is_never_negative (tileSize : number)
    (snake : Utils.Snake) (food : Point.t) :
  ltb zero tileSize = true ->
  isNaN (Utils.manhattanDistance tileSize snake food) = true \/
  nonneg (Utils.manhattanDistance tileSize snake food) = true.
Proof.
  intros Ht. unfold Utils.manhattanDistance.
  set (dx := abs (sub (Point.x (Utils.head snake)) (Point.x food))).
  set (dy := abs (sub (Point.y (Utils.head snake)) (Point.y food))).
  assert (Habs : forall v, isNaN (abs v) = true \/ nonneg (abs v) = true)
    by (intros [| | |]; cbn; auto).
  assert (Hsum : isNaN (add dx dy) = true \/ nonneg (add dx dy) = true).
  { destruct (Habs (sub (Point.x (Utils.head snake)) (Point.x food))) as [Hx|Hx];
      fold dx in Hx.
    - left. destruct dx; try discriminate. reflexivity.
    - destruct (Habs (sub (Point.y (Utils.head snake)) (Point.y food))) as [Hy|Hy];
        fold dy in Hy.
      + left. destruct dy; try discriminate. apply (f_equal isNaN (add_NaN_r dx)).
      + right. apply add_nonneg; assumption. }
  destruct Hsum as [Hs|Hs].
  - left. destruct (add dx dy); try discriminate. reflexivity.
  - destruct (positive_cases tileSize Ht) as [-> | (mt & et & ->)];
      destruct (nonneg_cases _ Hs) as [[s0 ->] | Hp];
      try (right; destruct s0; reflexivity);
      destruct (positive_cases _ Hp) as [-> | (ms & es & ->)];
      try (left; reflexivity); try (right; reflexivity).
    right. apply rounded_nonneg, div_rounded.
Qed.

(** ** managers/gameInstance.js and runInstances *)

Section EpisodeFacts.
Context `{Game}.
Implicit Types (g : GameInstance Snake Food) (c : Controller)
  (objs : ref -> GameInstance Snake Food) (calls : list (P5Call Snake Food)).

(** X13: The playing field is the closed rectangle [[0, width] x [0, height]]: a
    head whose coordinates are numbers does not collide with the border
    exactly when it lies in it, the four edges included. *)
Theorem X13_borderCollision_outside_the_closed_canvas g (p : Point.t) :
  Snake_body (snake g) !! 0%nat = Some p ->
  isNaN (Point.x p) = false -> isNaN (Point.y p) = false ->
  isNaN width = false -> isNaN height = false ->
  (borderCollision g = Returned false <->
   leb zero (Point.x p) = true /\ leb (Point.x p) width = true /\
   leb zero (Point.y p) = true /\ leb (Point.y p) height = true).
Proof.
  intros Hp Hx Hy Hw Hh. unfold borderCollision. rewrite Hp.
  rewrite <- (ltb_false_leb (Point.x p) zero Hx eq_refl).
  rewrite <- (ltb_false_leb width (Point.x p) Hw Hx).
  rewrite <- (ltb_false_leb (Point.y p) zero Hy eq_refl).
  rewrite <- (ltb_false_leb height (Point.y p) Hh Hy).
  destruct (ltb (Point.x p) zero), (ltb width (Point.x p)),
    (ltb (Point.y p) zero), (ltb height (Point.y p)); cbn;
    split; try (intros [= ?]); try (intros (? & ? & ? & ?)); try discriminate;
    repeat split.
Qed.

Lemma run_instance g : (run g).1.2 = step g.
Proof.
  unfold run. destruct (gameOver (step g)) as [[]|]; reflexivity.
Qed.

Lemma runInstances_loop_keeps (refs : list ref) objs calls (r : ref) :
  isOver ((runInstances_loop refs objs calls).1.2 r) = isOver (objs r) /\
  score ((runInstances_loop refs objs calls).1.2 r) = score (objs r).
Proof.
  revert objs calls. induction refs as [|r0 refs IH]; intros objs calls;
    cbn [runInstances_loop].
  - split; reflexivity.
  - pose proof (run_instance (objs r0)) as Hg.
    destruct (run (objs r0)) as [[res g'] made]. cbn [fst snd] in Hg. subst g'.
    assert (Hstep : isOver ((<[r0 := step (objs r0)]> objs) r) = isOver (objs r) /\
                    score ((<[r0 := step (objs r0)]> objs) r) = score (objs r)).
    { destruct (decide (r0 = r)) as [->|Hne].
      - rewrite fn_lookup_insert. split; reflexivity.
      - rewrite fn_lookup_insert_ne by exact Hne. split; reflexivity. }
    destruct res as [[]|]; [|exact Hstep].
    destruct (IH (<[r0 := step (objs r0)]> objs) (calls ++ made)) as [H1 H2].
    rewrite H1, H2. exact Hstep.
Qed.

Lemma runInstances_fields c calls :
  (forall r, isOver (objects (runInstances c calls).1.2 r) = isOver (objects c r) /\
             score (objects (runInstances c calls).1.2 r) = score (objects c r)) /\
  gameInstances (runInstances c calls).1.2 = gameInstances c.
Proof.
  split.
  - intros r.
    pose proof (runInstances_loop_keeps (gameInstances c) (objects c) calls r) as Hk.
    unfold runInstances.
    destruct (runInstances_loop (gameInstances c) (objects c) calls)
      as [[res objs'] calls'].
    exact Hk.
  - unfold runInstances.
    destruct (runInstances_loop (gameInstances c) (objects c) calls)
      as [[res objs'] calls'].
    reflexivity.
Qed.

(** [allInstancesOver()] reads only the population array and the [isOver]
    of the objects. *)
Lemma allInstancesOver_ext c c' :
  (forall r, isOver (objects c' r) = isOver (objects c r)) ->
  gameInstances c' = gameInstances c ->
  allInstancesOver c' = allInstancesOver c.
Proof.
  intros Hover Hpop. unfold allInstancesOver, every. rewrite Hpop.
  generalize (gameInstances c). intros l.
  induction l as [|r l IH]; cbn [forallb].
  - reflexivity.
  - rewrite Hover, IH. reflexivity.
Qed.

(** X14: [runInstances()] never writes [isOver] or [score]: whether it returns or
    throws, every instance keeps both, the population is the same array, and
    [allInstancesOver()] answers what it answered before. *)
Theorem X14_runInstances_never_ends_an_episode c calls :
  (forall r, isOver (objects (runInstances c calls).1.2 r) = isOver (objects c r) /\
             score (objects (runInstances c calls).1.2 r) = score (objects c r)) /\
  gameInstances (runInstances c calls).1.2 = gameInstances c /\
  allInstancesOver (runInstances c calls).1.2 = allInstancesOver c.
Proof.
  destruct (runInstances_fields c calls) as [Hkeep Hpop].
  split; [exact Hkeep|]. split; [exact Hpop|].
  apply allInstancesOver_ext; [|exact Hpop].
  intros r. apply Hkeep.
Qed.

Lemma iterated_runInstances_keeps (k : nat) c :
  allInstancesOver (Nat.iter k (fun c0 => (runInstances c0 []).1.2) c)
  = allInstancesOver c.
Proof.
  induction k as [|k IH]; cbn [Nat.iter].
  - reflexivity.
  - rewrite <- IH.
    destruct (runInstances_fields
                (Nat.iter k (fun c0 => (runInstances c0 []).1.2) c) [])
      as [Hkeep Hpop].
    apply allInstancesOver_ext; [|exact Hpop]. intros r. apply Hkeep.
Qed.

(** X15: After [createGameInstances] on a new manager with [nInstances > 0],
    [allInstancesOver()] is false, and it stays false however often
    [runInstances()] is called: the instances start with [isOver] false and
    no step of an episode sets it. *)
Theorem X15_allInstancesOver_stays_false (snake0 : Snake) (food0 : Food)
    (n k : nat) objs (next : ref) (g0 : Random) :
  n <> 0%nat ->
  allInstancesOver
    (Nat.iter k (fun c0 => (runInstances c0 []).1.2)
       (createGameInstances snake0 food0 (constructor n objs next g0)))
  = false.
Proof.
  intros Hn. rewrite iterated_runInstances_keeps.
  destruct (createGameInstances_loop_spec n snake0 food0
              (constructor n objs next g0)) as (_ & Hpop & _ & _ & Hobj).
  unfold allInstancesOver, every, createGameInstances.
  change (nInstances (constructor n objs next g0)) with n.
  rewrite Hpop. cbn [constructor gameInstances fresh app].
  destruct n as [|n]; [congruence|]. cbn [seq forallb].
  rewrite Hobj. cbn [constructor fresh].
  case_decide; [reflexivity | lia].
Qed.

(** X16: When [runInstances()] returns, the object a reference denotes has
    advanced one step for every slot of the population that holds the
    reference: an instance that fills two slots plays two steps per call. *)
Theorem X16_runInstances_steps_once_per_slot c calls c' calls' (r : ref) :
  runInstances c calls = (Returned tt, c', calls') ->
  objects c' r
  = Nat.iter (count_occ Nat.eq_dec (gameInstances c) r) step (objects c r).
Proof.
  unfold runInstances.
  destruct (runInstances_loop (gameInstances c) (objects c) calls)
    as [[res objs'] calls1] eqn:Eloop.
  intros [= -> <- <-]. cbn [objects].
  revert Eloop. generalize (gameInstances c) (objects c) calls.
  intros refs. induction refs as [|r0 refs IH]; intros objs calls0;
    cbn [runInstances_loop count_occ].
  - intros [= <- _]. reflexivity.
  - pose proof (run_instance (objs r0)) as Hg.
    destruct (run (objs r0)) as [[res g'] made]. cbn [fst snd] in Hg. subst g'.
    destruct res as [[]|]; [|discriminate].
    intros Eloop. rewrite (IH _ _ Eloop).
    destruct (Nat.eq_dec r0 r) as [->|Hne].
    + rewrite fn_lookup_insert. symmetry. apply Nat.iter_succ_r.
    + rewrite fn_lookup_insert_ne by exact Hne. reflexivity.
Qed.

Lemma noLoop_in_run g :
  p5_noLoop ∈ (run g).2 <-> gameOver (step g) = Returned true.
Proof.
  unfold run. destruct (gameOver (step g)) as [[]|]; cbn [snd].
  - split; [reflexivity|]. intros _. apply elem_of_app. right.
    unfold gameOverMessage. do 8 apply list_elem_of_further.
    apply list_elem_of_here.
  - split; [|discriminate]. intros Hin.
    repeat (apply elem_of_cons in Hin as [Hin|Hin]; [discriminate Hin|]).
    inversion Hin.
  - split; [|discriminate]. intros Hin.
    repeat (apply elem_of_cons in Hin as [Hin|Hin]; [discriminate Hin|]).
    inversion Hin.
Qed.

Lemma noLoop_in_runInstances_loop (refs : list ref) objs calls :
  NoDup refs ->
  (runInstances_loop refs objs calls).1.1 = Returned tt ->
  (p5_noLoop ∈ (runInstances_loop refs objs calls).2 <->
   p5_noLoop ∈ calls \/
   exists r, r ∈ refs /\ gameOver (step (objs r)) = Returned true).
Proof.
  revert objs calls. induction refs as [|r0 refs IH]; intros objs calls Hnd;
    cbn [runInstances_loop].
  - intros _. cbn [snd]. split; [auto|]. intros [Hin | (r & Hr & _)];
      [exact Hin | inversion Hr].
  - inversion Hnd as [|? ? Hr0 Hnd']; subst. clear Hnd. rename Hnd' into Hnd.
    pose proof (run_instance (objs r0)) as Hg.
    pose proof (noLoop_in_run (objs r0)) as Hloop.
    destruct (run (objs r0)) as [[res g'] made]. cbn [fst snd] in Hg, Hloop.
    subst g'. destruct res as [[]|]; [|discriminate].
    intros Hret. rewrite (IH _ _ Hnd Hret). rewrite elem_of_app, Hloop.
    split.
    + intros [[Hin | Hover] | (r & Hr & Hover)].
      * left. exact Hin.
      * right. exists r0. split; [apply list_elem_of_here | exact Hover].
      * right. exists r. split; [apply list_elem_of_further, Hr|].
        rewrite fn_lookup_insert_ne in Hover by (intros ->; exact (Hr0 Hr)).
        exact Hover.
    + intros [Hin | (r & Hr & Hover)]; [left; left; exact Hin|].
      apply elem_of_cons in Hr as [-> | Hr].
      * left. right. exact Hover.
      * right. exists r. split; [exact Hr|].
        rewrite fn_lookup_insert_ne by (intros ->; exact (Hr0 Hr)).
        exact Hover.
Qed.

(** X17: One game over stops the draw loop for the whole population: when no
    instance fills two slots and [runInstances()] returns, it has called
    [noLoop()] exactly when some instance is over after its step. *)
Theorem X17_one_game_over_stops_the_loop c c' calls' :
  NoDup (gameInstances c) ->
  runInstances c [] = (Returned tt, c', calls') ->
  (p5_noLoop ∈ calls' <->
   exists r, r ∈ gameInstances c /\
             gameOver (step (objects c r)) = Returned true).
Proof.
  intros Hnd. unfold runInstances.
  pose proof (noLoop_in_runInstances_loop (gameInstances c) (objects c) [] Hnd)
    as Hloop.
  destruct (runInstances_loop (gameInstances c) (objects c) [])
    as [[res objs'] calls1].
  intros [= -> <- <-]. cbn [fst snd] in Hloop.
  rewrite (Hloop eq_refl). split.
  - intros [Hin | Hex]; [inversion Hin | exact Hex].
  - intros Hex. right. exact Hex.
Qed.

End EpisodeFacts.

(** ** gameInstancesManager.js: createGameInstances *)

Section AllocationFacts.
Context `{Collaborators}.
Implicit Types (c : Controller).

(** X18: References are never reused: when the population has no duplicate and
    lies below the next free reference, [createGameInstances] keeps both
    facts and leaves every existing object as it is. *)
Theorem X18_createGameInstances_keeps_instances_apart (snake0 : Snake)
    (food0 : Food) c :
  NoDup (gameInstances c) ->
  (forall r, r ∈ gameInstances c -> (r < fresh c)%nat) ->
  NoDup (gameInstances (createGameInstances snake0 food0 c)) /\
  (forall r, r ∈ gameInstances (createGameInstances snake0 food0 c) ->
             (r < fresh (createGameInstances snake0 food0 c))%nat) /\
  (forall r, (r < fresh c)%nat ->
             objects (createGameInstances snake0 food0 c) r = objects c r).
Proof.
  intros Hnd Hbelow. unfold createGameInstances.
  destruct (createGameInstances_loop_spec (nInstances c) snake0 food0 c)
    as (_ & Hpop & Hfresh & _ & Hobj).
  rewrite Hpop, Hfresh. split; [|split].
  - apply list.NoDup_app. split; [exact Hnd|]. split; [|apply NoDup_seq].
    intros r Hr Hseq. apply elem_of_seq in Hseq. specialize (Hbelow r Hr). lia.
  - intros r Hr. apply elem_of_app in Hr as [Hr | Hr].
    + specialize (Hbelow r Hr). lia.
    + apply elem_of_seq in Hr. lia.
  - intros r Hr. rewrite Hobj. case_decide; [lia | reflexivity].
Qed.

End AllocationFacts.

(** ** The further properties at concrete inputs *)

Lemma X1_witness :
  exists k, (k < length one_two_three)%nat /\ (k < length abc)%nat /\
            abc !! k = Some "b"%string.
Proof.
  apply (X1_result_lies_within_both_arrays
           (mkMemory abc one_two_three draws_half) "b"%string).
  reflexivity.
Defined.

Lemma X2_witness :
  fst (weightedRandomSelection (mkMemory abc [one; zero; one] draws_half))
  <> Some "b"%string.
Proof.
  apply (X2_zero_weight_after_the_first_is_never_returned abc
           [one; zero; one] draws_half 1 zero "b"%string);
    [|lia | reflexivity | reflexivity | reflexivity].
  apply NoDup_ListNoDup. repeat constructor; simpl; intuition discriminate.
Defined.

Lemma X4_witness :
  fst (weightedRandomSelection (mkMemory abc [zero; one; one] draws_zero))
  = Some "a"%string.
Proof.
  apply (X4_zero_draw_returns_the_first_element "a"%string ["b"; "c"]%string
           zero [one; one] draws_zero false);
    reflexivity.
Defined.

Lemma X5_witness :
  fst (nextGeneration new_manager) = Thrown_TypeError /\
  gameInstances (snd (nextGeneration new_manager)) = [] /\
  objects (snd (nextGeneration new_manager)) = two_objects /\
  generator (snd (nextGeneration new_manager)) = advance draws_half.
Proof.
  apply (X5_nextGeneration_on_empty_population_throws (H := counting)
           new_manager);
    [reflexivity | discriminate].
Defined.

Lemma X7_witness :
  objects (snd (nextGeneration two_scored)) 5%nat = two_objects 5%nat /\
  fresh (snd (nextGeneration two_scored)) = 2%nat.
Proof.
  apply (X7_nextGeneration_touches_only_the_population (H := counting)
           two_scored 5%nat).
  intros Hin. repeat (apply elem_of_cons in Hin as [Hin|Hin]; [discriminate Hin|]).
  inversion Hin.
Defined.

Lemma X8_witness :
  Forall (fun w => isNaN w = true) (normalize (fitnesses_of scored_NaN_mixed)) /\
  selection scored_NaN_mixed = select_population (uniform 2) scored_NaN_mixed /\
  (exists c', selection scored_NaN_mixed = (Returned tt, c') /\
     uniform_selection scored_NaN_mixed c') /\
  gameInstances (snd (selection scored_NaN_mixed)) = [1; 0]%nat.
Proof.
  destruct (X8_NaN_fitness_makes_selection_uniform (H := counting)
              scored_NaN_mixed) as (Hnan & Hsel & Hret);
    [apply list_elem_of_here | reflexivity | intros [|k]; repeat split |].
  split; [exact Hnan|]. split; [exact Hsel|]. split; [exact Hret | reflexivity].
Defined.

Lemma X9_witness :
  fst (nextGeneration (scored infinity)) = Thrown_TypeError /\
  gameInstances (snd (nextGeneration (scored infinity))) = [0; 1]%nat /\
  objects (snd (nextGeneration (scored infinity))) = objects (scored infinity).
Proof.
  apply (X9_infinite_fitness_makes_nextGeneration_throw (H := counting)
           (scored infinity) one);
    [repeat constructor | apply list_elem_of_here
    | apply list_elem_of_further, list_elem_of_here | reflexivity
    | discriminate].
Defined.

Lemma X11_witness :
  eqb (Utils.manhattanDistance (of_nat 2) (Utils.mkSnake (Point.mk one half))
         (Point.mk one half)) zero = true.
Proof.
  apply (X11_manhattanDistance_on_the_food_is_zero (of_nat 2)
           (Point.mk one half)); reflexivity.
Defined.

Lemma X12_witness :
  isNaN (Utils.manhattanDistance (of_nat 2) (Utils.mkSnake (Point.mk one half))
           (Point.mk zero (of_nat 3))) = true \/
  nonneg (Utils.manhattanDistance (of_nat 2) (Utils.mkSnake (Point.mk one half))
            (Point.mk zero (of_nat 3))) = true.
Proof.
  apply (X12_manhattanDistance_is_never_negative (of_nat 2)
           (Utils.mkSnake (Point.mk one half)) (Point.mk zero (of_nat 3))).
  reflexivity.
Defined.

Lemma X13_witness :
  borderCollision (mkGameInstance 3%nat 0%nat zero false) = Returned false <->
  leb zero (of_nat 3) = true /\ leb (of_nat 3) width = true /\
  leb zero zero = true /\ leb zero height = true.
Proof.
  apply (X13_borderCollision_outside_the_closed_canvas (H0 := sliding)
           (mkGameInstance 3%nat 0%nat zero false) (Point.mk (of_nat 3) zero));
    reflexivity.
Defined.

Lemma X15_witness :
  allInstancesOver
    (Nat.iter 3 (fun c0 => (runInstances c0 []).1.2)
       (createGameInstances 7%nat 9%nat new_manager))
  = false.
Proof.
  apply (X15_allInstancesOver_stays_false (H0 := sliding) 7%nat 9%nat 2 3
           two_objects 2%nat draws_half).
  discriminate.
Defined.

Lemma X16_witness :
  objects (runInstances one_in_two_slots []).1.2 0%nat
  = step (step (objects one_in_two_slots 0%nat)).
Proof.
  apply (X16_runInstances_steps_once_per_slot (H0 := sliding) one_in_two_slots []
           (runInstances one_in_two_slots []).1.2
           (runInstances one_in_two_slots []).2 0%nat).
  reflexivity.
Defined.

Lemma X17_witness :
  p5_noLoop ∈ (runInstances near_the_border []).2 <->
  exists r, r ∈ gameInstances near_the_border /\
            gameOver (step (objects near_the_border r)) = Returned true.
Proof.
  apply (X17_one_game_over_stops_the_loop (H0 := sliding) near_the_border
           (runInstances near_the_border []).1.2
           (runInstances near_the_border []).2);
    [|reflexivity].
  apply NoDup_ListNoDup. repeat constructor; simpl; intuition discriminate.
Defined.

Lemma X18_witness :
  NoDup (gameInstances (createGameInstances 7%nat 9%nat two_scored)) /\
  gameInstances (createGameInstances 7%nat 9%nat two_scored)
  = [0; 1; 2; 3]%nat.
Proof.
  split; [|reflexivity].
  apply (X18_createGameInstances_keeps_instances_apart (H := counting)
           7%nat 9%nat two_scored).
  - apply NoDup_ListNoDup. repeat constructor; simpl; intuition discriminate.
  - intros r Hr. simpl.
    repeat (apply elem_of_cons in Hr as [->|Hr]; [lia|]). inversion Hr.
Defined.
